(** * LEGO Art Creator: a shallow embedding of [script.js]

    The development follows the layout of the script:
    - the palette and the colour functions ([hexToRgb],
      [findClosestLegoColor], [rgbToHex]);
    - the document state (grid, undo stack, tool selection, brick elements)
      with the row arrays kept in a store, so that sharing between the live
      grid and the stored snapshots is visible;
    - the handlers ([placeBrick], [undo], [saveState], [clearCanvas],
      the size selector, [processImageToLego]);
    - the theorems.

    JavaScript numbers that hold integers are modelled as [Z]; the only
    place where the script leaves the integers is [Math.sqrt], modelled
    by the binary64 square root of [PrimFloat]. *)

From Stdlib Require Import ZArith Floats Uint63 Lia List Ascii String Strings.Byte.
From stdpp Require Import base list strings.

Open Scope Z_scope.

(** ** Numbers *)

(** The double holding an integer. Exact for [0 <= z < 2^53]. *)
Definition float_of_Z (z : Z) : float := PrimFloat.of_uint63 (Uint63.of_Z z).

(** [Math.sqrt] on a non-negative integer argument. *)
Definition Math_sqrt (z : Z) : float := PrimFloat.sqrt (float_of_Z z).

(** A number operand of the script: [Some z] is the integer [z], [None]
    is a value that is not a number ([undefined] read past the end of an
    array, or the [NaN] of [parseInt]); arithmetic on it gives [NaN]. *)
Definition number := option Z.

(** ** Strings: [replace], [substring], [parseInt(_, 16)] *)

(** [s.replace(c, '')]: removes the first occurrence of the character. *)
Fixpoint remove_first (c : ascii) (s : string) : string :=
  match s with
  | EmptyString => EmptyString
  | String a s' => if Ascii.eqb a c then s' else String a (remove_first c s')
  end.

Definition hex_digit (c : ascii) : option Z :=
  let n := Z.of_N (N_of_ascii c) in
  if (48 <=? n) && (n <=? 57) then Some (n - 48)
  else if (65 <=? n) && (n <=? 70) then Some (n - 55)
  else if (97 <=? n) && (n <=? 102) then Some (n - 87)
  else None.

(** Reads the longest prefix of hexadecimal digits, [acc] being the value
    of the digits read so far ([None] when no digit has been read). *)
Fixpoint parse_hex (s : string) (acc : number) : number :=
  match s with
  | EmptyString => acc
  | String a s' =>
      match hex_digit a with
      | Some d => parse_hex s' (Some (default 0 acc * 16 + d))
      | None => acc
      end
  end.

(** [parseInt(s, 16)] on a string without leading blanks, sign or [0x]
    prefix (the two-character pieces of a colour code): the value of the
    leading hexadecimal digits, [NaN] when there is none. *)
Definition parseInt16 (s : string) : number := parse_hex s None.

(** ** The palette *)

Record LegoColor := { name : string; hex : string }.

Definition legoColors : list LegoColor :=
  [ {| name := "Bright Red"; hex := "#C91A09" |};
    {| name := "Bright Blue"; hex := "#0055BF" |};
    {| name := "Bright Yellow"; hex := "#F2CD37" |};
    {| name := "Dark Green"; hex := "#287F46" |};
    {| name := "Bright Orange"; hex := "#FE8A18" |};
    {| name := "Medium Lavender"; hex := "#AC78BA" |};
    {| name := "White"; hex := "#F2F3F2" |};
    {| name := "Black"; hex := "#05131D" |};
    {| name := "Dark Tan"; hex := "#958A73" |};
    {| name := "Medium Blue"; hex := "#5A93DB" |};
    {| name := "Bright Green"; hex := "#4B9F4A" |};
    {| name := "Dark Orange"; hex := "#A95500" |};
    {| name := "Light Purple"; hex := "#E4ADC8" |};
    {| name := "Sand Blue"; hex := "#6074A1" |};
    {| name := "Dark Red"; hex := "#720E0F" |};
    {| name := "Lime"; hex := "#BBE90B" |};
    {| name := "Medium Azur"; hex := "#36AEBF" |};
    {| name := "Dark Brown"; hex := "#352100" |};
    {| name := "Light Bluish Gray"; hex := "#A0A5A9" |};
    {| name := "Dark Bluish Gray"; hex := "#6C6E68" |} ].

(** ** [hexToRgb] and [findClosestLegoColor] *)

Record RGB := { r : number; g : number; b : number }.

Definition hexToRgb (hex : string) : RGB :=
  let hex := remove_first "#" hex in
  {| r := parseInt16 (substring 0 2 hex);
     g := parseInt16 (substring 2 2 hex);
     b := parseInt16 (substring 4 2 hex) |}.

(** [Math.sqrt(Math.pow(r - c.r, 2) + Math.pow(g - c.g, 2) + Math.pow(b - c.b, 2))].
    The differences, squares and sums of integers stay integers (far
    below [2^53]); one operand that is not a number makes the result [NaN]. *)
Definition distance (r0 g0 b0 : number) (legoRGB : RGB) : float :=
  match r0, g0, b0, r legoRGB, g legoRGB, b legoRGB with
  | Some r0, Some g0, Some b0, Some r1, Some g1, Some b1 =>
      Math_sqrt ((r0 - r1) ^ 2 + (g0 - g1) ^ 2 + (b0 - b1) ^ 2)
  | _, _, _, _, _, _ => nan
  end.

(** One turn of the [forEach] of [findClosestLegoColor]; the state is
    [(closestColor, smallestDistance)]. *)
Definition closer (r0 g0 b0 : number) (st : string * float) (legoColor : LegoColor)
  : string * float :=
  let legoRGB := hexToRgb (hex legoColor) in
  let d := distance r0 g0 b0 legoRGB in
  if PrimFloat.ltb d (snd st) then (hex legoColor, d) else st.

(** The function over an arbitrary palette [colors]; [colors[0].hex] of
    an empty palette is a [TypeError] in the script, which the fixed
    non-empty [legoColors] excludes: the model then gives the empty string. *)
Definition findClosestIn (colors : list LegoColor) (r0 g0 b0 : number) : string :=
  let closestColor := match colors with c :: _ => hex c | [] => EmptyString end in
  fst (fold_left (closer r0 g0 b0) colors (closestColor, infinity)).

Definition findClosestLegoColor (r0 g0 b0 : number) : string :=
  findClosestIn legoColors r0 g0 b0.

(** The channels of a palette entry when all three are numbers. *)
Definition channels (c : LegoColor) : option (Z * Z * Z) :=
  match hexToRgb (hex c) with
  | {| r := Some r1; g := Some g1; b := Some b1 |} => Some (r1, g1, b1)
  | _ => None
  end.

(** The squared Euclidean distance of the specification. *)
Definition sqdist (r0 g0 b0 : Z) (p : Z * Z * Z) : Z :=
  let '(r1, g1, b1) := p in (r0 - r1) ^ 2 + (g0 - g1) ^ 2 + (b0 - b1) ^ 2.

Definition byte_range (z : Z) : Prop := 0 <= z <= 255.

Definition valid_color (c : LegoColor) : Prop :=
  exists r1 g1 b1, channels c = Some (r1, g1, b1) /\
    byte_range r1 /\ byte_range g1 /\ byte_range b1.

(** Checks [Math.sqrt z < Math.sqrt (z + 1)] for [n] consecutive integers
    starting at [z]. *)
Fixpoint sqrt_increasing (n : nat) (z : Z) : bool :=
  match n with
  | O => true
  | S k => PrimFloat.ltb (Math_sqrt z) (Math_sqrt (z + 1)) && sqrt_increasing k (z + 1)
  end.

(** The largest squared distance between two colours: [3 * 255^2]. *)
Definition max_sqdist : Z := 195075.

(** [h] is the colour code of the entry of [colors] nearest to
    [(r0, g0, b0)], the first one in the order of the list when several
    are at the smallest distance. *)
Definition first_closest (colors : list LegoColor) (r0 g0 b0 : Z) (h : string) : Prop :=
  exists (i : nat) c p,
    colors !! i = Some c /\ channels c = Some p /\ h = hex c /\
    forall (j : nat) c', colors !! j = Some c' ->
      exists p', channels c' = Some p' /\
        sqdist r0 g0 b0 p <= sqdist r0 g0 b0 p' /\
        ((j < i)%nat -> sqdist r0 g0 b0 p < sqdist r0 g0 b0 p').

(** The palette as a table of colour codes with their red, green and
    blue values written out in decimal, in the order of [legoColors]. *)
Definition paletteRGB : list (string * (Z * Z * Z)) :=
  [ ("#C91A09"%string, (201, 26, 9));
    ("#0055BF"%string, (0, 85, 191));
    ("#F2CD37"%string, (242, 205, 55));
    ("#287F46"%string, (40, 127, 70));
    ("#FE8A18"%string, (254, 138, 24));
    ("#AC78BA"%string, (172, 120, 186));
    ("#F2F3F2"%string, (242, 243, 242));
    ("#05131D"%string, (5, 19, 29));
    ("#958A73"%string, (149, 138, 115));
    ("#5A93DB"%string, (90, 147, 219));
    ("#4B9F4A"%string, (75, 159, 74));
    ("#A95500"%string, (169, 85, 0));
    ("#E4ADC8"%string, (228, 173, 200));
    ("#6074A1"%string, (96, 116, 161));
    ("#720E0F"%string, (114, 14, 15));
    ("#BBE90B"%string, (187, 233, 11));
    ("#36AEBF"%string, (54, 174, 191));
    ("#352100"%string, (53, 33, 0));
    ("#A0A5A9"%string, (160, 165, 169));
    ("#6C6E68"%string, (108, 110, 104)) ].

(** [h] is the code of the entry of [table] whose colour is nearest to
    [(r0, g0, b0)] in squared Euclidean distance, the first one in the
    order of the table when several are at the smallest distance. *)
Definition first_nearest (table : list (string * (Z * Z * Z)))
    (r0 g0 b0 : Z) (h : string) : Prop :=
  exists (i : nat) code p,
    table !! i = Some (code, p) /\ h = code /\
    forall (j : nat) code' p', table !! j = Some (code', p') ->
      sqdist r0 g0 b0 p <= sqdist r0 g0 b0 p' /\
      ((j < i)%nat -> sqdist r0 g0 b0 p < sqdist r0 g0 b0 p').

(** ** [rgbToHex] *)

Definition is_digit (c : ascii) : bool :=
  let n := Z.of_N (N_of_ascii c) in (48 <=? n) && (n <=? 57).

(** [s.match(/\d+/g)]: the maximal runs of decimal digits, in order,
    the empty list standing for [null]; [cur] is the run being read. *)
Fixpoint digit_runs (s : string) (cur : string) : list string :=
  match s with
  | EmptyString => match cur with EmptyString => [] | _ => [cur] end
  | String a s' =>
      if is_digit a then digit_runs s' (String.append cur (String a EmptyString))
      else match cur with
           | EmptyString => digit_runs s' EmptyString
           | _ => cur :: digit_runs s' EmptyString
           end
  end.

Fixpoint parse_dec (s : string) (acc : number) : number :=
  match s with
  | EmptyString => acc
  | String a s' =>
      if is_digit a
      then parse_dec s' (Some (default 0 acc * 10 + (Z.of_N (N_of_ascii a) - 48)))
      else acc
  end.

(** [parseInt(x)] for an element of the match result: a run of digits,
    or [undefined] past the end of the result, which gives [NaN]. The
    value is exact below [2^53]. *)
Definition parseInt10 (x : option string) : number :=
  match x with
  | Some s => parse_dec s None
  | None => None
  end.

Definition digit_char (d : Z) : ascii :=
  ascii_of_N (Z.to_N (if d <? 10 then 48 + d else 87 + d)).

(** The digits of [z > 0] in the given base, most significant first,
    before [acc]; [fuel] bounds the number of digits. *)
Fixpoint to_digits (base : Z) (fuel : nat) (z : Z) (acc : string) : string :=
  match fuel with
  | O => acc
  | S f =>
      let acc := String (digit_char (z mod base)) acc in
      if z / base =? 0 then acc else to_digits base f (z / base) acc
  end.

(** [n.toString(16)] for a non-negative integer or [NaN]. *)
Definition toString16 (n : number) : string :=
  match n with
  | Some z => to_digits 16 (S (Z.to_nat (Z.log2 z))) z EmptyString
  | None => "NaN"
  end.

(** [s.padStart(2, '0')] *)
Definition padStart2 (s : string) : string :=
  match String.length s with
  | O => "00"
  | S O => String "0" s
  | _ => s
  end.

Definition upper (c : ascii) : ascii :=
  let n := N_of_ascii c in
  if (97 <=? n)%N && (n <=? 122)%N then ascii_of_N (n - 32) else c.

(** [s.toUpperCase()] on the ASCII text [rgbToHex] builds. *)
Fixpoint toUpperCase (s : string) : string :=
  match s with
  | EmptyString => EmptyString
  | String a s' => String (upper a) (toUpperCase s')
  end.

Definition rgbToHex (rgb : string) : string :=
  match digit_runs rgb EmptyString with
  | [] => rgb
  | result =>
      let r := padStart2 (toString16 (parseInt10 (result !! 0%nat))) in
      let g := padStart2 (toString16 (parseInt10 (result !! 1%nat))) in
      let b := padStart2 (toString16 (parseInt10 (result !! 2%nat))) in
      toUpperCase (String "#" (String.append r (String.append g b)))
  end.

(** The decimal text of a non-negative integer. *)
Definition decimal (z : Z) : string :=
  to_digits 10 (S (Z.to_nat (Z.log2 z))) z EmptyString.

(** The text a browser gives when [style.backgroundColor] is read back:
    [rgb(r, g, b)]. *)
Definition cssRgb (r g b : Z) : string :=
  String.append "rgb("
    (String.append (decimal r)
       (String.append ", "
          (String.append (decimal g)
             (String.append ", " (String.append (decimal b) ")"))))).

(** A colour code [#RRGGBB] given by its six digits. *)
Definition colorCode (d1 d2 d3 d4 d5 d6 : ascii) : string :=
  String "#" (String d1 (String d2 (String d3 (String d4 (String d5 (String d6 EmptyString)))))).

(** The two characters [rgbToHex] writes for a channel value. *)
Definition channelCode (z : Z) : string :=
  toUpperCase (padStart2 (toString16 (Some z))).

Fixpoint all_digits (s : string) : bool :=
  match s with
  | EmptyString => true
  | String a s' => is_digit a && all_digits s'
  end.

(** The checks made once for each of the 256 channel values. *)
Definition decimal_ok (z : Z) : bool :=
  all_digits (decimal z)
  && negb (String.eqb (decimal z) EmptyString)
  && match parse_dec (decimal z) None with Some v => v =? z | None => false end.

Definition channelCode_ok (z : Z) : bool :=
  match channelCode z with
  | String a (String c EmptyString) =>
      negb (Ascii.eqb a "#") && negb (Ascii.eqb c "#")
      && match parseInt16 (String a (String c EmptyString)) with
         | Some v => v =? z
         | None => false
         end
  | _ => false
  end.

(** The sixteen digits of an upper-case colour code. *)
Definition upperHexDigits : list ascii :=
  ["0"; "1"; "2"; "3"; "4"; "5"; "6"; "7"; "8"; "9"; "A"; "B"; "C"; "D"; "E"; "F"]%char.

Definition digit_pair_ok (a c : ascii) : bool :=
  match hex_digit a, hex_digit c with
  | Some v1, Some v2 =>
      String.eqb (channelCode (v1 * 16 + v2)) (String a (String c EmptyString))
  | _, _ => false
  end.

Close Scope Z_scope.

(** ** The document state *)

(** A cell of a row array: [null], [undefined] (read from a position
    that was never assigned) or a colour code. *)
Inductive Cell := CNull | CUndefined | CColor (code : string).

(** A brick element of the page: the coordinates kept in its [dataset],
    the string last assigned to [style.backgroundColor] (empty before any
    assignment) and whether its class list has [placed]. *)
Record Brick := {
  brow : nat;
  bcol : nat;
  backgroundColor : string;
  placed : bool
}.

(** Row arrays live in a store and are named by their position in it;
    a new array takes the next position. The outer arrays ([legoGrid] and
    each saved state) are never written after their creation, so they are
    kept as lists of references to rows. *)
Abbreviation loc := nat (only parsing).

Record State := {
  currentColor : string;
  canvasSize : nat;
  legoGrid : list loc;
  undoStack : list (list loc);   (* most recent last *)
  isEraserMode : bool;
  store : list (list Cell);
  bricks : list Brick;           (* [.brick] elements in document order *)
  alerts : list string           (* messages shown by [alert], latest last *)
}.

Definition with_currentColor (c : string) (st : State) : State :=
  {| currentColor := c; canvasSize := canvasSize st; legoGrid := legoGrid st;
     undoStack := undoStack st; isEraserMode := isEraserMode st;
     store := store st; bricks := bricks st; alerts := alerts st |}.

Definition with_canvasSize (n : nat) (st : State) : State :=
  {| currentColor := currentColor st; canvasSize := n; legoGrid := legoGrid st;
     undoStack := undoStack st; isEraserMode := isEraserMode st;
     store := store st; bricks := bricks st; alerts := alerts st |}.

Definition with_legoGrid (g : list loc) (st : State) : State :=
  {| currentColor := currentColor st; canvasSize := canvasSize st; legoGrid := g;
     undoStack := undoStack st; isEraserMode := isEraserMode st;
     store := store st; bricks := bricks st; alerts := alerts st |}.

Definition with_undoStack (u : list (list loc)) (st : State) : State :=
  {| currentColor := currentColor st; canvasSize := canvasSize st; legoGrid := legoGrid st;
     undoStack := u; isEraserMode := isEraserMode st;
     store := store st; bricks := bricks st; alerts := alerts st |}.

Definition with_isEraserMode (e : bool) (st : State) : State :=
  {| currentColor := currentColor st; canvasSize := canvasSize st; legoGrid := legoGrid st;
     undoStack := undoStack st; isEraserMode := e;
     store := store st; bricks := bricks st; alerts := alerts st |}.

Definition with_store (h : list (list Cell)) (st : State) : State :=
  {| currentColor := currentColor st; canvasSize := canvasSize st; legoGrid := legoGrid st;
     undoStack := undoStack st; isEraserMode := isEraserMode st;
     store := h; bricks := bricks st; alerts := alerts st |}.

Definition with_bricks (bs : list Brick) (st : State) : State :=
  {| currentColor := currentColor st; canvasSize := canvasSize st; legoGrid := legoGrid st;
     undoStack := undoStack st; isEraserMode := isEraserMode st;
     store := store st; bricks := bs; alerts := alerts st |}.

(** [alert(message)] *)
Definition alert (message : string) (st : State) : State :=
  {| currentColor := currentColor st; canvasSize := canvasSize st; legoGrid := legoGrid st;
     undoStack := undoStack st; isEraserMode := isEraserMode st;
     store := store st; bricks := bricks st; alerts := alerts st ++ [message] |}.

(** How a handler ends: normally, or by an exception nobody catches.
    The changes made to the state before the exception remain. *)
Inductive Completion := Normal | Throw (error : string).

Definition M := State -> Completion * State.

Definition lift (f : State -> State) : M := fun st => (Normal, f st).

Definition andThen (m1 m2 : M) : M := fun st =>
  match m1 st with
  | (Normal, st') => m2 st'
  | (Throw e, st') => (Throw e, st')
  end.

Declare Scope handler_scope.
Notation "m1 ;; m2" := (andThen m1 m2)
  (at level 100, m2 at level 200, right associativity) : handler_scope.
Open Scope handler_scope.

(** [for (let i = first; i < first + count; i++) body(i)] *)
Fixpoint for_loop (body : nat -> M) (first count : nat) : M :=
  match count with
  | 0 => lift id
  | S k => body first ;; for_loop body (S first) k
  end.

(** *** Reading the arrays *)

Definition readRow (h : list (list Cell)) (l : loc) : list Cell := default [] (h !! l).

Definition rowsOf (h : list (list Cell)) (g : list loc) : list (list Cell) :=
  readRow h <$> g.

(** The contents of the live grid and of the saved states. *)
Definition grid (st : State) : list (list Cell) := rowsOf (store st) (legoGrid st).

Definition snapshots (st : State) : list (list (list Cell)) :=
  rowsOf (store st) <$> undoStack st.

(** [row[col]]: [undefined] past the end. *)
Definition cellAt (row : list Cell) (col : nat) : Cell := default CUndefined (row !! col).

(** [arr[i] = v]: an index past the end lengthens the array, the
    positions in between reading [undefined]. *)
Definition array_set (arr : list Cell) (i : nat) (v : Cell) : list Cell :=
  if decide (i < length arr) then <[i := v]> arr
  else arr ++ replicate (i - length arr) CUndefined ++ [v].

(** [legoGrid[row][col] = v]: a [TypeError] when [legoGrid[row]] is
    [undefined]. *)
Definition writeCell (row col : nat) (v : Cell) : M := fun st =>
  match legoGrid st !! row with
  | None => (Throw "TypeError", st)
  | Some l =>
      (Normal, with_store (<[l := array_set (readRow (store st) l) col v]> (store st)) st)
  end.

(** ** The handlers *)

(** [selectColor]: the marking of the selected swatch is not modelled. *)
Definition selectColor (colorHex : string) (st : State) : State :=
  with_currentColor colorHex st.

(** The click handler of the [i]-th swatch made by [initializeColorPalette]. *)
Definition swatchClick (i : nat) (st : State) : State :=
  match legoColors !! i with
  | Some color => with_isEraserMode false (selectColor (hex color) st)
  | None => st
  end.

Definition toggleEraser (st : State) : State :=
  with_isEraserMode (negb (isEraserMode st)) st.

Definition createBrick (row col : nat) : Brick :=
  {| brow := row; bcol := col; backgroundColor := ""; placed := false |}.

(** [initializeCanvas]: a new grid of [canvasSize] new rows of
    [canvasSize] [null]s, and new brick elements in place of the old ones. *)
Definition initializeCanvas (st : State) : State :=
  let n := canvasSize st in
  with_bricks (flat_map (fun row => map (createBrick row) (seq 0 n)) (seq 0 n))
    (with_store (store st ++ replicate n (replicate n CNull))
       (with_legoGrid (seq (length (store st)) n) st)).

(** [saveState]: every row is copied into a new array; the copy of the
    grid is pushed, and the oldest saved state is dropped when there are
    more than 20. *)
Definition saveState (st : State) : State :=
  let stateCopy := seq (length (store st)) (length (legoGrid st)) in
  let stack := undoStack st ++ [stateCopy] in
  with_undoStack (if decide (20 < length stack) then tail stack else stack)
    (with_store (store st ++ grid st) st).

Definition setBrick (color : string) (isPlaced : bool) (bk : Brick) : Brick :=
  {| brow := brow bk; bcol := bcol bk; backgroundColor := color; placed := isPlaced |}.

(** [placeBrick(row, col, brickElement)], the element being given by its
    position among the bricks of the page. *)
Definition placeBrick (row col brickElement : nat) : M := fun st =>
  let st := saveState st in
  if isEraserMode st then
    (writeCell row col CNull ;;
     lift (fun st => with_bricks (alter (setBrick "#1a1a1a" false) brickElement (bricks st)) st)) st
  else
    (writeCell row col (CColor (currentColor st)) ;;
     lift (fun st' =>
       with_bricks (alter (setBrick (currentColor st) true) brickElement (bricks st')) st')) st.

(** [if (color)]: [null], [undefined] and the empty string are false. *)
Definition truthy (c : Cell) : option string :=
  match c with
  | CColor code => if decide (code = "") then None else Some code
  | _ => None
  end.

(** One turn of the [forEach] of [redrawCanvas]; [None] is the
    [TypeError] of [legoGrid[row][col]] when [legoGrid] has no such row. *)
Definition redrawBrick (st : State) (bk : Brick) : option Brick :=
  match legoGrid st !! brow bk with
  | None => None
  | Some l =>
      match truthy (cellAt (readRow (store st) l) (bcol bk)) with
      | Some color => Some (setBrick color true bk)
      | None => Some (setBrick "#1a1a1a" false bk)
      end
  end.

Fixpoint redrawBricks (st : State) (bs : list Brick) : Completion * list Brick :=
  match bs with
  | [] => (Normal, [])
  | bk :: rest =>
      match redrawBrick st bk with
      | None => (Throw "TypeError", bk :: rest)
      | Some bk' => let '(c, rest') := redrawBricks st rest in (c, bk' :: rest')
      end
  end.

Definition redrawCanvas : M := fun st =>
  let '(c, bs) := redrawBricks st (bricks st) in (c, with_bricks bs st).

Definition undo : M := fun st =>
  if decide (length (undoStack st) = 0) then (Normal, alert "Nothing to undo!" st)
  else
    let previousState := default [] (last (undoStack st)) in
    redrawCanvas (with_legoGrid previousState (with_undoStack (removelast (undoStack st)) st)).

(** [clearCanvas], [confirmed] being the answer to [confirm]. *)
Definition clearCanvas (confirmed : bool) (st : State) : State :=
  if confirmed then initializeCanvas (saveState st) else st.

(** The [change] handler of the size selector: [value] is the number
    read from the selected option. *)
Definition canvasSizeChange (value : nat) (confirmed : bool) (st : State) : State :=
  let st := with_canvasSize value st in
  if confirmed then initializeCanvas st else st.

(** ** Image conversion *)

Record Image := { width : nat; height : nat; data : list byte }.

(** What the canvas gives for [drawImage(img, 0, 0, size, size)] followed
    by [getImageData(0, 0, size, size)]: an exception of [drawImage]
    (caught by the script), an exception of [getImageData] (not caught),
    or the bytes of the [size * size] pixels, four per pixel. *)
Inductive DrawResult :=
| DrawError (message : string)
| ReadError (error : string)
| Drawn (pixels : list byte).

(** [pixels[i]] *)
Definition pixelAt (pixels : list byte) (i : nat) : number :=
  (fun x => Z.of_N (Byte.to_N x)) <$> (pixels !! i).

Definition convertCell (pixels : list byte) (row col : nat) : M := fun st =>
  let pixelIndex := (row * canvasSize st + col) * 4 in
  let closestLegoColor :=
    findClosestLegoColor (pixelAt pixels pixelIndex) (pixelAt pixels (pixelIndex + 1))
      (pixelAt pixels (pixelIndex + 2)) in
  writeCell row col (CColor closestLegoColor) st.

(** [legoGrid[0].slice(0, 5)] in the log line after the loops. *)
Definition sampleFirstRow : M := fun st =>
  match legoGrid st !! 0 with
  | None => (Throw "TypeError", st)
  | Some _ => (Normal, st)
  end.

Definition generatedMessage : string :=
  "🎉 Your LEGO art has been generated! You can now manually adjust any bricks you want.".

Section Canvas.

(** The scaling done by the browser. *)
Variable drawImage : Image -> nat -> DrawResult.

Definition processImageToLego (img : Image) : M := fun st =>
  let st := saveState st in
  match drawImage img (canvasSize st) with
  | DrawError message => (Normal, alert ("Error processing image: " ++ message) st)
  | ReadError e => (Throw e, st)
  | Drawn pixels =>
      (for_loop (fun row =>
         for_loop (fun col => convertCell pixels row col) 0 (canvasSize st))
         0 (canvasSize st) ;;
       sampleFirstRow ;;
       redrawCanvas ;;
       lift (alert generatedMessage)) st
  end.

(** [generateLegoArt] for an image that has finished loading; [None]
    is a reference image without source. *)
Definition generateLegoArt (img : option Image) : M := fun st =>
  match img with
  | None => (Normal, alert "Please upload an image first!" st)
  | Some img => processImageToLego img st
  end.

(** ** The events of a session *)

Inductive Event :=
| ClickBrick (k : nat)
| ClickSwatch (i : nat)
| ClickEraser
| ClickUndo
| ClickClear (confirmed : bool)
| ChangeSize (value : nat) (confirmed : bool)
| ClickGenerate (img : option Image).

Definition handle (e : Event) : M := fun st =>
  match e with
  | ClickBrick k =>
      match bricks st !! k with
      | Some bk => placeBrick (brow bk) (bcol bk) k st
      | None => (Normal, st)
      end
  | ClickSwatch i => (Normal, swatchClick i st)
  | ClickEraser => (Normal, toggleEraser st)
  | ClickUndo => undo st
  | ClickClear confirmed => (Normal, clearCanvas confirmed st)
  | ChangeSize value confirmed => (Normal, canvasSizeChange value confirmed st)
  | ClickGenerate img => generateLegoArt img st
  end.

(** An exception ends the handler; the next event finds the state as
    the handler left it. *)
Definition run (es : list Event) (st : State) : State :=
  fold_left (fun s e => snd (handle e s)) es st.

End Canvas.

(** The globals as the script declares them. *)
Definition globals : State :=
  {| currentColor := "#FF0000"; canvasSize := 32; legoGrid := []; undoStack := [];
     isEraserMode := false; store := []; bricks := []; alerts := [] |}.

(** The [DOMContentLoaded] handler: the grid is built and the first
    palette colour selected. *)
Definition onLoad (st : State) : State :=
  match legoColors with
  | first :: _ => selectColor (hex first) (initializeCanvas st)
  | [] => initializeCanvas st
  end.

Definition initialState : State := onLoad globals.

(** ** Invariants and views used by the theorems *)

(** All the row arrays the script can still reach. *)
Definition refs (st : State) : list loc := legoGrid st ++ mjoin (undoStack st).

(** Every reachable row exists, and no row is reachable twice: the live
    grid and the saved states share no array. *)
Definition wf (st : State) : Prop :=
  Forall (fun l => l < length (store st)) (refs st) /\ NoDup (refs st).

(** Pushing on a stack that keeps at most 20 entries, as a function on
    the contents. *)
Definition push20 {A} (s : list A) (x : A) : list A :=
  if decide (20 < length (s ++ [x])) then tail (s ++ [x]) else s ++ [x].

(** [legoGrid[row][col]] for a row that exists. *)
Definition gridCell (st : State) (row col : nat) : option Cell :=
  (fun cells => cellAt cells col) <$> (grid st !! row).

(** [m] keeps the property [P] of the state, however it completes. *)
Definition preserves (P : State -> Prop) (m : M) : Prop :=
  forall st c st', m st = (c, st') -> P st -> P st'.

(** What a handler body that only writes cells of the live grid leaves
    as it was in [st0]. *)
Definition doc_frame (st0 st : State) : Prop :=
  wf st /\ snapshots st = snapshots st0 /\ legoGrid st = legoGrid st0 /\
  undoStack st = undoStack st0 /\ canvasSize st = canvasSize st0 /\
  length (store st) = length (store st0) /\
  currentColor st = currentColor st0 /\ isEraserMode st = isEraserMode st0.

(** The colour codes of the palette. *)
Definition paletteCodes : list string := hex <$> legoColors.

Definition cell_in_palette (c : Cell) : Prop :=
  match c with
  | CColor code => code ∈ paletteCodes
  | _ => True
  end.

(** The selected colour and every cell of every row array are palette
    colours. *)
Definition palette_closed (st : State) : Prop :=
  currentColor st ∈ paletteCodes /\ Forall (Forall cell_in_palette) (store st).

(** The value [placeBrick] writes: [null] with the eraser, the selected
    colour otherwise. *)
Definition brickValue (st : State) : Cell :=
  if isEraserMode st then CNull else CColor (currentColor st).

(** ** Editing sessions *)

(** A tool choice between two brick clicks. *)
Inductive ToolEvent := PressEraser | PickSwatch (i : nat).

Definition useTool (t : ToolEvent) (st : State) : State :=
  match t with
  | PressEraser => toggleEraser st
  | PickSwatch i => swatchClick i st
  end.

(** A cell mutation: some tool choices, then one call of [placeBrick]. *)
Record Mutation := {
  tools : list ToolEvent;
  mrow : nat;
  mcol : nat;
  melement : nat
}.

Definition mutate (m : Mutation) (st : State) : State :=
  snd (placeBrick (mrow m) (mcol m) (melement m)
         (fold_left (fun s t => useTool t s) (tools m) st)).

Definition mutateAll (ms : list Mutation) (st : State) : State :=
  fold_left (fun s m => mutate m s) ms st.

(** [n] calls of [undo] in a row. *)
Fixpoint undoTimes (n : nat) (st : State) : State :=
  match n with
  | 0 => st
  | S k => undoTimes k (snd (undo st))
  end.

(** The grids found by the successive mutations of [ms]. *)
Fixpoint trace (ms : list Mutation) (st : State) : list (list (list Cell)) :=
  match ms with
  | [] => []
  | m :: ms' => grid st :: trace ms' (mutate m st)
  end.

(** The last [n] elements of a list. *)
Definition lastN {A} (n : nat) (l : list A) : list A := drop (length l - n) l.

(** The invariant of a session: the saved states are apart from the
    live grid and there are at most 20 of them. *)
Definition session_inv (st : State) : Prop := wf st /\ length (undoStack st) <= 20.

(** ** Concrete sessions used as examples *)

(** A canvas whose [drawImage] always fails. *)
Definition noCanvas (img : Image) (size : nat) : DrawResult := DrawError "no image".

(** The document after the size selector was set to 2 and confirmed. *)
Definition smallState : State := canvasSizeChange 2 true initialState.

Definition clickCell (row col : nat) : Mutation :=
  {| tools := []; mrow := row; mcol := col; melement := row * 2 + col |}.

(** 25 mutations of the 2 x 2 document, going round its four cells and
    switching between the eraser and a colour. *)
Definition twentyFiveMutations : list Mutation :=
  flat_map (fun k =>
    [ {| tools := [PickSwatch k]; mrow := 0; mcol := 0; melement := 0 |};
      clickCell 0 1;
      {| tools := [PressEraser]; mrow := 1; mcol := 0; melement := 2 |};
      clickCell 1 1;
      {| tools := [PickSwatch (k + 7)]; mrow := 0; mcol := 1; melement := 1 |} ])
    (seq 0 5).

(** ** Views of the image conversion *)

(** The colour [processImageToLego] computes for the cell [(row, col)]
    of a grid of dimension [size], from the bytes of the scaled canvas. *)
Definition convertedColor (pixels : list byte) (size row col : nat) : string :=
  findClosestLegoColor (pixelAt pixels ((row * size + col) * 4))
    (pixelAt pixels ((row * size + col) * 4 + 1))
    (pixelAt pixels ((row * size + col) * 4 + 2)).

(** The row array after [arr[col] = f col] for [count] columns from [first]. *)
Fixpoint fill_row (f : nat -> Cell) (first count : nat) (arr : list Cell) : list Cell :=
  match count with
  | 0 => arr
  | S k => fill_row f (S first) k (array_set arr first (f first))
  end.

(** The colour nearest to the pixel [(x, y)] of the source image. *)
Definition sourceColor (img : Image) (x y : nat) : string :=
  findClosestLegoColor (pixelAt (data img) ((y * width img + x) * 4))
    (pixelAt (data img) ((y * width img + x) * 4 + 1))
    (pixelAt (data img) ((y * width img + x) * 4 + 2)).

(** The pixel [(col, row)] of the scaled canvas has the channels of the
    pixel [(x, y)] of the source. *)
Definition samples (pixels : list byte) (size row col : nat) (img : Image) (x y : nat) : Prop :=
  pixelAt pixels ((row * size + col) * 4) = pixelAt (data img) ((y * width img + x) * 4) /\
  pixelAt pixels ((row * size + col) * 4 + 1) = pixelAt (data img) ((y * width img + x) * 4 + 1) /\
  pixelAt pixels ((row * size + col) * 4 + 2) = pixelAt (data img) ((y * width img + x) * 4 + 2).

Definition byteOf (n : nat) : byte := default "000"%byte (Byte.of_nat n).

Definition rgba (red green blue : nat) : list byte :=
  [byteOf red; byteOf green; byteOf blue; byteOf 255].

(** The four bytes of the pixel [(x, y)]. *)
Definition sourcePixel (img : Image) (x y : nat) : list byte :=
  take 4 (drop ((y * width img + x) * 4) (data img)).

Definition channel (img : Image) (x y k : nat) : nat :=
  match data img !! ((y * width img + x) * 4 + k) with
  | Some v => N.to_nat (Byte.to_N v)
  | None => 0
  end.

(** A canvas that takes, for each pixel of the target, the one source
    pixel at [floor (col * width / size)], [floor (row * height / size)]. *)
Definition nearestCanvas (img : Image) (size : nat) : DrawResult :=
  Drawn (flat_map (fun row =>
           flat_map (fun col =>
             sourcePixel img (col * width img / size) (row * height img / size))
             (seq 0 size))
           (seq 0 size)).

(** A canvas that smooths: each pixel of the target is the mean of the
    2 x 2 source pixels it covers (for a source twice as wide and high as
    the target). *)
Definition smoothingCanvas (img : Image) (size : nat) : DrawResult :=
  Drawn (flat_map (fun row =>
           flat_map (fun col =>
             map (fun k => byteOf ((channel img (2 * col) (2 * row) k
                                    + channel img (2 * col + 1) (2 * row) k
                                    + channel img (2 * col) (2 * row + 1) k
                                    + channel img (2 * col + 1) (2 * row + 1) k) / 4))
               (seq 0 4))
             (seq 0 size))
           (seq 0 size)).

(** A 4 x 4 image, white except for the black pixel [(2, 2)]. *)
Definition spotImage : Image :=
  {| width := 4; height := 4;
     data := flat_map (fun i => if decide (i = 10) then rgba 0 0 0 else rgba 255 255 255)
               (seq 0 16) |}.

(** ** What the page shows *)

(** The brick element shows the content of its cell: the colour of a
    filled cell with the class [placed], no class [placed] and the
    background of an empty brick (or none yet) otherwise. *)
Definition shows (st : State) (bk : Brick) : Prop :=
  exists cell, gridCell st (brow bk) (bcol bk) = Some cell /\
    match truthy cell with
    | Some color => backgroundColor bk = color /\ placed bk = true
    | None =>
        placed bk = false /\
        (backgroundColor bk = EmptyString \/ backgroundColor bk = "#1a1a1a"%string)
    end.

Definition coords (bk : Brick) : nat * nat := (brow bk, bcol bk).

(** The state after a session in which every handler completed
    normally; [None] when one ended by an exception. *)
Fixpoint runNormal (drawImage : Image -> nat -> DrawResult)
    (es : list Event) (st : State) : option State :=
  match es with
  | [] => Some st
  | e :: es' =>
      match handle drawImage e st with
      | (Normal, st') => runNormal drawImage es' st'
      | (Throw _, _) => None
      end
  end.

Definition display_inv (st : State) : Prop :=
  wf st /\ palette_closed st /\ NoDup (coords <$> bricks st) /\
  Forall (shows st) (bricks st).

(** ** [saveCreation] *)

(** The calls [saveCreation] makes on the 2d context of its canvas.
    [Arc x y radius] is [arc(x, y, radius, 0, 2 * Math.PI)]. *)
Inductive CanvasCall :=
| SetFillStyle (style : string)
| FillRect (x y w h : nat)
| SetStrokeStyle (style : string)
| SetLineWidth (w : nat)
| StrokeRect (x y w h : nat)
| BeginPath
| Arc (x y radius : nat)
| Fill.

Definition brickSize : nat := 20.

(** [legoGrid[row][col] || '#e0e0e0'] *)
Definition fillColor (c : Cell) : string := default "#e0e0e0"%string (truthy c).

(** The body of the inner loop for the cell [(row, col)] holding [c]. *)
Definition drawBrick (c : Cell) (row col : nat) : list CanvasCall :=
  [ SetFillStyle (fillColor c);
    FillRect (col * brickSize) (row * brickSize) brickSize brickSize;
    SetStrokeStyle "rgba(0, 0, 0, 0.2)";
    SetLineWidth 1;
    StrokeRect (col * brickSize) (row * brickSize) brickSize brickSize;
    SetFillStyle "rgba(255, 255, 255, 0.3)";
    BeginPath;
    Arc (col * brickSize + brickSize / 2) (row * brickSize + brickSize / 2) (brickSize / 4);
    Fill ].

(** The two loops over the rows [rows]: the calls made, and the
    [TypeError] of [legoGrid[row][col]] at the first row the grid lacks. *)
Fixpoint drawRows (st : State) (rows : list nat) : Completion * list CanvasCall :=
  match rows with
  | [] => (Normal, [])
  | row :: rest =>
      match legoGrid st !! row with
      | None => (Throw "TypeError", [])
      | Some l =>
          let calls :=
            flat_map (fun col => drawBrick (cellAt (readRow (store st) l) col) row col)
              (seq 0 (canvasSize st)) in
          let '(c, more) := drawRows st rest in (c, calls ++ more)
      end
  end.

(** [saveCreation]: the width and height given to the canvas, how the
    drawing ends and the calls made; the download of the picture is not
    modelled. *)
Definition saveCreation (st : State) : nat * nat * Completion * list CanvasCall :=
  let '(c, calls) := drawRows st (seq 0 (canvasSize st)) in
  (canvasSize st * brickSize, canvasSize st * brickSize, c, calls).

(** The rectangles filled, each with the fill style in force when it is
    filled, its corner, its width and its height. *)
Fixpoint filledRects (style : string) (calls : list CanvasCall)
  : list (string * nat * nat * nat * nat) :=
  match calls with
  | [] => []
  | SetFillStyle s :: rest => filledRects s rest
  | FillRect x y w h :: rest => (style, x, y, w, h) :: filledRects style rest
  | _ :: rest => filledRects style rest
  end.

(** The colour the saved picture must have at the cell [(row, col)]:
    the code the cell holds, and light grey for a cell that holds no
    colour ([null], [undefined], or no such cell). *)
Definition pictureColor (st : State) (row col : nat) : string :=
  match grid st !! row with
  | Some cells =>
      match cells !! col with
      | Some (CColor (String a code)) => String a code
      | _ => "#e0e0e0"%string
      end
  | None => "#e0e0e0"%string
  end.

(* ================================================================== *)
(** * Theorems *)
(* ================================================================== *)

(** ** The order of the doubles [Math.sqrt] returns *)

Section FloatOrder.

Local Open Scope Z_scope.

Lemma SFcompare_Lt_trans f1 f2 f3 :
  SFcompare f1 f2 = Some Lt -> SFcompare f2 f3 = Some Lt -> SFcompare f1 f3 = Some Lt.
Proof.
  destruct f1 as [s1|s1| |s1 m1 e1], f2 as [s2|s2| |s2 m2 e2], f3 as [s3|s3| |s3 m3 e3];
    simpl; try discriminate;
    try destruct s1; try destruct s2; try destruct s3;
    try discriminate; try reflexivity;
    change (Pos.compare_cont Eq) with Pos.compare;
    destruct (Z.compare_spec e1 e2), (Z.compare_spec e2 e3), (Z.compare_spec e1 e3);
    try discriminate; try reflexivity; try lia;
    destruct (Pos.compare_spec m1 m2), (Pos.compare_spec m2 m3), (Pos.compare_spec m1 m3);
    simpl; try discriminate; try reflexivity; try lia.
Qed.

Lemma SFcompare_Lt_asym f1 f2 :
  SFcompare f1 f2 = Some Lt -> SFcompare f2 f1 <> Some Lt.
Proof.
  destruct f1 as [s1|s1| |s1 m1 e1], f2 as [s2|s2| |s2 m2 e2];
    simpl; try discriminate;
    try destruct s1; try destruct s2; try discriminate;
    change (Pos.compare_cont Eq) with Pos.compare;
    destruct (Z.compare_spec e1 e2), (Z.compare_spec e2 e1);
    try discriminate; try lia;
    destruct (Pos.compare_spec m1 m2), (Pos.compare_spec m2 m1);
    simpl; try discriminate; try lia.
Qed.

Lemma fltb_true_iff x y :
  PrimFloat.ltb x y = true <-> SFcompare (Prim2SF x) (Prim2SF y) = Some Lt.
Proof.
  rewrite FloatAxioms.ltb_spec. unfold SFltb.
  destruct (SFcompare (Prim2SF x) (Prim2SF y)) as [[]|]; split; congruence.
Qed.

Lemma fltb_trans x y z :
  PrimFloat.ltb x y = true -> PrimFloat.ltb y z = true -> PrimFloat.ltb x z = true.
Proof. rewrite !fltb_true_iff. apply SFcompare_Lt_trans. Qed.

Lemma fltb_asym x y : PrimFloat.ltb x y = true -> PrimFloat.ltb y x = false.
Proof.
  intros H. apply fltb_true_iff, SFcompare_Lt_asym in H.
  destruct (PrimFloat.ltb y x) eqn:E; [|reflexivity].
  apply fltb_true_iff in E. contradiction.
Qed.

Lemma fltb_irrefl x : PrimFloat.ltb x x = false.
Proof.
  destruct (PrimFloat.ltb x x) eqn:E; [|reflexivity].
  pose proof (fltb_asym _ _ E). congruence.
Qed.

Lemma sqrt_increasing_step n : forall z k,
  sqrt_increasing n z = true -> 0 <= k < Z.of_nat n ->
  PrimFloat.ltb (Math_sqrt (z + k)) (Math_sqrt (z + k + 1)) = true.
Proof.
  induction n as [|n IH]; intros z k H Hk; [lia|].
  cbn [sqrt_increasing] in H. apply andb_prop in H as [H1 H2].
  destruct (Z.eq_dec k 0) as [->|Hne].
  - rewrite Z.add_0_r. exact H1.
  - replace (z + k) with ((z + 1) + (k - 1)) by lia.
    apply IH; [exact H2|lia].
Qed.

Lemma sqrt_table : sqrt_increasing (Z.to_nat max_sqdist) 0 = true.
Proof. vm_compute. reflexivity. Qed.

Lemma sqrt_lt_succ z :
  0 <= z < max_sqdist -> PrimFloat.ltb (Math_sqrt z) (Math_sqrt (z + 1)) = true.
Proof.
  intros Hz.
  pose proof (sqrt_increasing_step _ 0 z sqrt_table) as H.
  rewrite !Z.add_0_l in H. apply H. unfold max_sqdist in *. lia.
Qed.

(** On the integers up to [max_sqdist], the rounded square roots are
    ordered exactly like their arguments. *)
Lemma sqrt_lt_mono x y :
  0 <= x -> x < y -> y <= max_sqdist ->
  PrimFloat.ltb (Math_sqrt x) (Math_sqrt y) = true.
Proof.
  intros Hx Hxy Hy.
  replace y with (x + 1 + Z.of_nat (Z.to_nat (y - x - 1))) by lia.
  assert (Hb : x + 1 + Z.of_nat (Z.to_nat (y - x - 1)) <= max_sqdist) by lia.
  induction (Z.to_nat (y - x - 1)) as [|n IH].
  - rewrite Z.add_0_r. apply sqrt_lt_succ. lia.
  - eapply fltb_trans; [apply IH; lia|].
    replace (x + 1 + Z.of_nat (S n)) with (x + 1 + Z.of_nat n + 1) by lia.
    apply sqrt_lt_succ. lia.
Qed.

Lemma sqrt_ltb x y :
  0 <= x <= max_sqdist -> 0 <= y <= max_sqdist ->
  PrimFloat.ltb (Math_sqrt x) (Math_sqrt y) = (x <? y).
Proof.
  intros Hx Hy. destruct (Z.ltb_spec x y) as [Hlt|Hge].
  - apply sqrt_lt_mono; lia.
  - destruct (Z.eq_dec x y) as [->|Hne]; [apply fltb_irrefl|].
    apply fltb_asym, sqrt_lt_mono; lia.
Qed.

Lemma sqrt_lt_infinity x :
  0 <= x <= max_sqdist -> PrimFloat.ltb (Math_sqrt x) infinity = true.
Proof.
  intros Hx.
  assert (H : PrimFloat.ltb (Math_sqrt max_sqdist) infinity = true)
    by (vm_compute; reflexivity).
  destruct (Z.eq_dec x max_sqdist) as [->|Hne]; [exact H|].
  apply (fltb_trans _ (Math_sqrt max_sqdist)); [|exact H].
  apply sqrt_lt_mono; lia.
Qed.

End FloatOrder.

(** ** [findClosestLegoColor] *)

Section Closest.

Local Open Scope Z_scope.

Variables r0 g0 b0 : Z.
Hypothesis Hr : byte_range r0.
Hypothesis Hg : byte_range g0.
Hypothesis Hb : byte_range b0.

Lemma sqdist_range r1 g1 b1 :
  byte_range r1 -> byte_range g1 -> byte_range b1 ->
  0 <= sqdist r0 g0 b0 (r1, g1, b1) <= max_sqdist.
Proof.
  unfold byte_range, sqdist, max_sqdist in *. intros H1 H2 H3.
  assert (Hsq : forall d, -255 <= d <= 255 -> 0 <= d ^ 2 <= 65025).
  { intros d Hd. rewrite Z.pow_2_r. split.
    - apply Z.square_nonneg.
    - destruct (Z.le_ge_cases 0 d).
      + apply (Z.mul_le_mono_nonneg d 255 d 255); lia.
      + replace (d * d) with ((- d) * (- d)) by lia.
        apply (Z.mul_le_mono_nonneg (- d) 255 (- d) 255); lia. }
  pose proof (Hsq (r0 - r1) ltac:(lia)).
  pose proof (Hsq (g0 - g1) ltac:(lia)).
  pose proof (Hsq (b0 - b1) ltac:(lia)). lia.
Qed.

Lemma distance_channels c p :
  channels c = Some p ->
  distance (Some r0) (Some g0) (Some b0) (hexToRgb (hex c)) = Math_sqrt (sqdist r0 g0 b0 p).
Proof.
  unfold channels, distance.
  destruct (hexToRgb (hex c)) as [[r1|] [g1|] [b1|]]; cbn; intros [= <-]; reflexivity.
Qed.

Lemma valid_color_range c p :
  valid_color c -> channels c = Some p -> 0 <= sqdist r0 g0 b0 p <= max_sqdist.
Proof.
  intros (r1 & g1 & b1 & Hc & ? & ? & ?) Hp. rewrite Hc in Hp.
  injection Hp as <-. by apply sqdist_range.
Qed.

(** The loop invariant: the state holds the first nearest entry of
    the part of the palette already visited. *)
Lemma closest_fold (l : list LegoColor) : forall pre (i : nat) c p,
  Forall valid_color (pre ++ l) ->
  pre !! i = Some c -> channels c = Some p ->
  (forall (j : nat) c', pre !! j = Some c' ->
    exists p', channels c' = Some p' /\
      sqdist r0 g0 b0 p <= sqdist r0 g0 b0 p' /\
      ((j < i)%nat -> sqdist r0 g0 b0 p < sqdist r0 g0 b0 p')) ->
  first_closest (pre ++ l) r0 g0 b0
    (fst (fold_left (closer (Some r0) (Some g0) (Some b0)) l
            (hex c, Math_sqrt (sqdist r0 g0 b0 p)))).
Proof.
  induction l as [|x l IH]; intros pre i c p Hall Hi Hc Hmin.
  - rewrite app_nil_r. exists i, c, p. cbn. auto.
  - assert (Hx : valid_color x).
    { rewrite Forall_app in Hall. destruct Hall as [_ Hl]. by inversion Hl. }
    assert (Hcv : valid_color c).
    { rewrite Forall_app in Hall. destruct Hall as [Hp _].
      rewrite Forall_forall in Hp. apply Hp. eapply list_elem_of_lookup_2. exact Hi. }
    destruct Hx as (r1 & g1 & b1 & Hcx & Hr1 & Hg1 & Hb1).
    pose proof (sqdist_range _ _ _ Hr1 Hg1 Hb1) as Hdx.
    pose proof (valid_color_range _ _ Hcv Hc) as Hdp.
    pose proof (lookup_lt_Some _ _ _ Hi) as Hlt.
    cbn [fold_left]. unfold closer at 2. cbn [snd].
    rewrite (distance_channels _ _ Hcx), sqrt_ltb by assumption.
    replace (pre ++ x :: l) with ((pre ++ [x]) ++ l) in * by by rewrite <- app_assoc.
    destruct (Z.ltb_spec (sqdist r0 g0 b0 (r1, g1, b1)) (sqdist r0 g0 b0 p)) as [Hn|Hn].
    + apply (IH _ (length pre)); auto.
      * by rewrite lookup_app_r, Nat.sub_diag.
      * intros j c' Hj. destruct (lookup_app_Some pre [x] j c') as [H1 _].
        destruct (H1 Hj) as [Hj'|[Hge Hj']].
        -- destruct (Hmin _ _ Hj') as (p' & Hp' & Hle & _).
           exists p'. split; [done|]. lia.
        -- apply list_lookup_singleton_Some in Hj' as [Hj0 ->].
           exists (r1, g1, b1). split; [done|]. lia.
    + apply (IH _ i); auto.
      * by apply lookup_app_l_Some.
      * intros j c' Hj. destruct (lookup_app_Some pre [x] j c') as [H1 _].
        destruct (H1 Hj) as [Hj'|[Hge Hj']].
        -- by apply Hmin.
        -- apply list_lookup_singleton_Some in Hj' as [Hj0 ->].
           exists (r1, g1, b1). split; [done|]. lia.
Qed.

Lemma findClosestIn_first (colors : list LegoColor) :
  colors <> [] -> Forall valid_color colors ->
  first_closest colors r0 g0 b0 (findClosestIn colors (Some r0) (Some g0) (Some b0)).
Proof.
  destruct colors as [|c l]; [done|]. intros _ Hall.
  assert (Hc : valid_color c) by by inversion Hall.
  destruct Hc as (r1 & g1 & b1 & Hc & Hr1 & Hg1 & Hb1).
  pose proof (sqdist_range _ _ _ Hr1 Hg1 Hb1) as Hd.
  unfold findClosestIn. cbn [fold_left]. unfold closer at 2. cbn [snd].
  rewrite (distance_channels _ _ Hc), sqrt_lt_infinity by assumption.
  apply (closest_fold l [c] 0%nat); auto.
  intros [|j] c' Hj; [|done]. injection Hj as <-.
  exists (r1, g1, b1). split; [done|]. lia.
Qed.

End Closest.

Ltac solve_valid_color :=
  match goal with
  | |- valid_color ?c =>
      let v := eval vm_compute in (channels c) in
      match v with
      | Some (?x, ?y, ?z) =>
          exists x, y, z; split; [vm_compute; reflexivity|unfold byte_range; lia]
      end
  end.

Lemma legoColors_valid : Forall valid_color legoColors.
Proof.
  unfold legoColors.
  repeat (apply Forall_cons_2; [solve_valid_color|]).
  apply Forall_nil_2.
Qed.

(** The decimal values of [paletteRGB] are the channels [hexToRgb]
    reads from the codes of [legoColors], entry by entry. *)
Lemma paletteRGB_channels :
  (fun c => Some (hex c, channels c)) <$> legoColors
    = (fun e => Some (e.1, Some e.2)) <$> paletteRGB.
Proof. vm_compute. reflexivity. Qed.

Lemma paletteRGB_lookup (i : nat) code p :
  paletteRGB !! i = Some (code, p) ->
  exists c, legoColors !! i = Some c /\ hex c = code /\ channels c = Some p.
Proof.
  intros Hi. pose proof (f_equal (fun l => l !! i) paletteRGB_channels) as H.
  cbn beta in H. rewrite !list_lookup_fmap, Hi in H.
  destruct (legoColors !! i) as [c|]; [|done]. cbn in H.
  injection H as H1 H2. by exists c.
Qed.

Lemma legoColors_lookup (i : nat) c :
  legoColors !! i = Some c ->
  exists p, paletteRGB !! i = Some (hex c, p) /\ channels c = Some p.
Proof.
  intros Hi. pose proof (f_equal (fun l => l !! i) paletteRGB_channels) as H.
  cbn beta in H. rewrite !list_lookup_fmap, Hi in H.
  destruct (paletteRGB !! i) as [[code p]|]; [|done]. cbn in H.
  injection H as H1 H2. exists p. by rewrite H1.
Qed.

(** C1. For every input [(r, g, b)] with channels in 0..255,
    [findClosestLegoColor] returns the colour code of the palette entry
    whose squared Euclidean distance [(r1-r2)^2 + (g1-g2)^2 + (b1-b2)^2]
    to the input is the smallest, and the entry that comes first in the
    palette when several entries are at that distance. The red, green
    and blue values of the entries are those written out in
    [paletteRGB], whose codes are the codes of [legoColors] in the same
    order. *)
Theorem findClosestLegoColor_first_nearest (r0 g0 b0 : Z) :
  byte_range r0 -> byte_range g0 -> byte_range b0 ->
  fst <$> paletteRGB = hex <$> legoColors /\
  first_nearest paletteRGB r0 g0 b0 (findClosestLegoColor (Some r0) (Some g0) (Some b0)).
Proof.
  intros Hr Hg Hb. split; [reflexivity|].
  destruct (findClosestIn_first r0 g0 b0 Hr Hg Hb legoColors)
    as (i & c & p & Hi & Hc & Hh & Hmin); [done|apply legoColors_valid|].
  destruct (legoColors_lookup i c Hi) as (p1 & Hi1 & Hc1).
  rewrite Hc in Hc1. injection Hc1 as <-.
  exists i, (hex c), p. split; [done|]. split; [exact Hh|].
  intros j code' p' Hj.
  destruct (paletteRGB_lookup j code' p' Hj) as (c' & Hj' & _ & Hc').
  destruct (Hmin j c' Hj') as (p2 & Hc2 & Hle & Hlt).
  rewrite Hc' in Hc2. injection Hc2 as <-. by split.
Qed.

Lemma findClosestLegoColor_first_nearest_witness :
  fst <$> paletteRGB = hex <$> legoColors /\
  first_nearest paletteRGB 10 200 30
    (findClosestLegoColor (Some 10%Z) (Some 200%Z) (Some 30%Z)).
Proof.
  apply (findClosestLegoColor_first_nearest 10 200 30); unfold byte_range; lia.
Defined.

(** ** The store *)

Section Store.

Implicit Types (h : list (list Cell)) (g : list loc) (l : loc).

Lemma rowsOf_app h h' g :
  Forall (fun l => l < length h) g -> rowsOf (h ++ h') g = rowsOf h g.
Proof.
  intros Hg. unfold rowsOf. apply Forall_fmap_ext_1.
  eapply Forall_impl; [exact Hg|]. intros l Hl. cbn in Hl.
  unfold readRow. by rewrite lookup_app_l.
Qed.

Lemma rowsOf_fresh h rows :
  rowsOf (h ++ rows) (seq (length h) (length rows)) = rows.
Proof.
  apply list_eq. intros i. unfold rowsOf. rewrite list_lookup_fmap.
  destruct (decide (i < length rows)) as [Hi|Hi].
  - rewrite lookup_seq_lt by done. cbn. unfold readRow.
    rewrite lookup_app_r by lia.
    replace (length h + i - length h) with i by lia.
    destruct (lookup_lt_is_Some_2 rows i Hi) as [x Hx]. by rewrite Hx.
  - rewrite lookup_seq_ge by lia. symmetry. apply lookup_ge_None_2. lia.
Qed.

Lemma rowsOf_insert_notin h g l x :
  l ∉ g -> rowsOf (<[l := x]> h) g = rowsOf h g.
Proof.
  intros Hl. unfold rowsOf. apply Forall_fmap_ext_1, Forall_forall.
  intros l' Hl'. unfold readRow. rewrite list_lookup_insert_ne; [done|].
  intros ->. contradiction.
Qed.

Lemma rowsOf_insert_row h g l x (row : nat) :
  NoDup g -> g !! row = Some l -> l < length h ->
  rowsOf (<[l := x]> h) g = <[row := x]> (rowsOf h g).
Proof.
  intros Hnd Hrow Hl. apply list_eq. intros i. unfold rowsOf.
  rewrite list_lookup_fmap.
  destruct (decide (i = row)) as [->|Hne].
  - rewrite Hrow. cbn. unfold readRow at 1. rewrite list_lookup_insert_eq by done.
    rewrite list_lookup_insert_eq; [done|].
    rewrite length_fmap. by eapply lookup_lt_Some.
  - rewrite list_lookup_insert_ne by done. rewrite list_lookup_fmap.
    destruct (g !! i) as [l'|] eqn:Hi; [|done]. cbn. f_equal.
    unfold readRow. rewrite list_lookup_insert_ne; [done|].
    intros ->. apply Hne. symmetry. by eapply NoDup_lookup.
Qed.

Lemma cellAt_array_set arr (i j : nat) v :
  cellAt (array_set arr i v) j = if decide (i = j) then v else cellAt arr j.
Proof.
  unfold cellAt, array_set. destruct (decide (i < length arr)) as [Hi|Hi].
  - destruct (decide (i = j)) as [->|Hne].
    + by rewrite list_lookup_insert_eq.
    + by rewrite list_lookup_insert_ne.
  - destruct (decide (i = j)) as [->|Hne].
    + rewrite lookup_app_r by lia. rewrite lookup_app_r by (rewrite length_replicate; lia).
      rewrite length_replicate. by replace (j - length arr - (j - length arr)) with 0 by lia.
    + destruct (decide (j < length arr)) as [Hj|Hj].
      * by rewrite lookup_app_l.
      * rewrite (lookup_ge_None_2 arr j) by lia. rewrite lookup_app_r by lia.
        destruct (decide (j < i)) as [Hji|Hji].
        -- rewrite lookup_app_l by (rewrite length_replicate; lia).
           rewrite lookup_replicate_2 by lia. done.
        -- rewrite lookup_ge_None_2; [done|].
           rewrite length_app, length_replicate. cbn. lia.
Qed.

Lemma array_set_same arr (i : nat) v :
  arr !! i = Some v -> array_set arr i v = arr.
Proof.
  intros Hi. unfold array_set. pose proof (lookup_lt_Some _ _ _ Hi).
  rewrite decide_True by done. by apply list_insert_id.
Qed.

Lemma array_set_in_range arr (i : nat) v :
  i < length arr -> array_set arr i v = <[i := v]> arr.
Proof. intros Hi. unfold array_set. by rewrite decide_True. Qed.

End Store.

(** ** Well-formed states *)

Section WellFormed.

Lemma wf_submseteq st st' :
  refs st' ⊆+ refs st -> length (store st) <= length (store st') -> wf st -> wf st'.
Proof.
  intros Hsub Hlen [Hall Hnd]. split.
  - apply Forall_forall. intros l Hl.
    rewrite Forall_forall in Hall.
    pose proof (Hall l (elem_of_submseteq _ _ _ Hl Hsub)). cbn in *. lia.
  - apply submseteq_Permutation in Hsub as [k Hk].
    rewrite Hk in Hnd. by apply NoDup_app in Hnd as [? _].
Qed.

Lemma wf_grid_lt st l : wf st -> l ∈ legoGrid st -> l < length (store st).
Proof.
  intros [Hall _] Hl. rewrite Forall_forall in Hall. apply Hall.
  apply elem_of_app. by left.
Qed.

Lemma wf_grid_Forall st : wf st -> Forall (fun l => l < length (store st)) (legoGrid st).
Proof. intros [Hall _]. unfold refs in Hall. by apply Forall_app in Hall as [? _]. Qed.

Lemma wf_grid_NoDup st : wf st -> NoDup (legoGrid st).
Proof. intros [_ Hnd]. unfold refs in Hnd. by apply NoDup_app in Hnd as [? _]. Qed.

Lemma wf_saved_Forall st s :
  wf st -> s ∈ undoStack st -> Forall (fun l => l < length (store st)) s.
Proof.
  intros [Hall _] Hs. unfold refs in Hall. apply Forall_app in Hall as [_ Hall].
  rewrite Forall_forall in Hall. apply Forall_forall. intros l Hl.
  apply Hall, list_elem_of_join. eauto.
Qed.

Lemma wf_saved_apart st s l :
  wf st -> s ∈ undoStack st -> l ∈ legoGrid st -> l ∉ s.
Proof.
  intros [_ Hnd] Hs Hl Hin. unfold refs in Hnd.
  apply NoDup_app in Hnd as (_ & Hdis & _).
  apply (Hdis l Hl), list_elem_of_join. eauto.
Qed.

Lemma length_grid st : length (grid st) = length (legoGrid st).
Proof. unfold grid, rowsOf. apply length_fmap. Qed.

Lemma length_snapshots st : length (snapshots st) = length (undoStack st).
Proof. unfold snapshots. apply length_fmap. Qed.

(** *** [saveState] *)

Lemma saveState_grid st : wf st -> grid (saveState st) = grid st.
Proof. intros Hwf. unfold grid. cbn. by apply rowsOf_app, wf_grid_Forall. Qed.

Lemma saveState_snapshots st :
  wf st -> snapshots (saveState st) = push20 (snapshots st) (grid st).
Proof.
  intros Hwf. unfold snapshots, push20. cbn.
  rewrite !length_app, length_fmap. cbn.
  assert (Heq : rowsOf (store st ++ grid st) <$>
                  (undoStack st ++ [seq (length (store st)) (length (legoGrid st))])
                = (rowsOf (store st) <$> undoStack st) ++ [grid st]).
  { rewrite fmap_snoc. f_equal.
    - apply Forall_fmap_ext_1, Forall_forall. intros s Hs.
      by apply rowsOf_app, wf_saved_Forall.
    - f_equal. rewrite <- (length_grid st). apply rowsOf_fresh. }
  destruct (decide (20 < length (undoStack st) + 1)).
  - by rewrite fmap_tail, Heq.
  - exact Heq.
Qed.

Lemma saveState_wf st : wf st -> wf (saveState st).
Proof.
  intros Hwf.
  set (copy := seq (length (store st)) (length (legoGrid st))).
  set (st1 := with_undoStack (undoStack st ++ [copy]) (with_store (store st ++ grid st) st)).
  assert (Hwf1 : wf st1).
  { destruct Hwf as [Hall Hnd]. unfold wf, refs, st1. cbn.
    rewrite join_app. cbn. rewrite app_nil_r, app_assoc. split.
    - apply Forall_app. split.
      + eapply Forall_impl; [exact Hall|]. intros l Hl. cbn in *.
        rewrite length_app. lia.
      + apply Forall_forall. intros l Hl. apply elem_of_seq in Hl.
        rewrite length_app, length_grid. lia.
    - apply NoDup_app. split; [exact Hnd|]. split; [|apply NoDup_seq].
      intros l Hl Hl'. apply elem_of_seq in Hl'.
      rewrite Forall_forall in Hall. specialize (Hall l Hl). cbn in Hall. lia. }
  unfold saveState. fold copy.
  destruct (decide (20 < length (undoStack st ++ [copy]))); [|exact Hwf1].
  eapply wf_submseteq; [| |exact Hwf1]; [|done].
  unfold refs, st1. cbn. apply submseteq_skips_l.
  destruct (undoStack st ++ [copy]) as [|s0 u]; [done|]. cbn.
  by apply submseteq_inserts_l.
Qed.

Lemma length_push20 {A} (s : list A) x :
  length (push20 s x) = Nat.min (S (length s)) 20 \/ 20 < length s.
Proof.
  unfold push20. rewrite length_app. cbn.
  destruct (decide (20 < length s + 1)) as [H|H].
  - destruct s as [|y s]; [cbn in H; lia|]. cbn in *. rewrite length_app. cbn.
    destruct (decide (length s = 19)); [left|right]; lia.
  - rewrite length_app. cbn. left. lia.
Qed.

Lemma push20_bound {A} (s : list A) x : length s <= 20 -> length (push20 s x) <= 20.
Proof. intros H. destruct (length_push20 s x); lia. Qed.

Lemma last_push20 {A} (s : list A) x : last (push20 s x) = Some x.
Proof.
  unfold push20. destruct (decide (20 < length (s ++ [x]))) as [H|H].
  - destruct s as [|y s]; [cbn in H; lia|]. cbn. apply last_snoc.
  - apply last_snoc.
Qed.

(** *** [legoGrid[row][col] = v] *)

Lemma writeCell_missing_row row col v st :
  legoGrid st !! row = None -> writeCell row col v st = (Throw "TypeError", st).
Proof. intros H. unfold writeCell. by rewrite H. Qed.

Lemma writeCell_wf row col v st c st' :
  writeCell row col v st = (c, st') -> wf st -> wf st'.
Proof.
  unfold writeCell. destruct (legoGrid st !! row) as [l|]; intros [= <- <-]; [|done].
  intros [Hall Hnd]. split; [|exact Hnd]. cbn. by rewrite length_insert.
Qed.

Lemma writeCell_snapshots row col v st c st' :
  writeCell row col v st = (c, st') -> wf st -> snapshots st' = snapshots st.
Proof.
  unfold writeCell. destruct (legoGrid st !! row) as [l|] eqn:Hrow;
    intros [= <- <-]; [|done].
  intros Hwf. unfold snapshots. cbn.
  apply Forall_fmap_ext_1, Forall_forall. intros s Hs.
  apply rowsOf_insert_notin. eapply wf_saved_apart; eauto.
  by eapply list_elem_of_lookup_2.
Qed.

Lemma writeCell_grid row col v st l :
  wf st -> legoGrid st !! row = Some l ->
  exists st', writeCell row col v st = (Normal, st') /\
    grid st' = <[row := array_set (readRow (store st) l) col v]> (grid st).
Proof.
  intros Hwf Hrow. unfold writeCell. rewrite Hrow. eexists. split; [done|].
  unfold grid. cbn. apply rowsOf_insert_row; auto using wf_grid_NoDup.
  eapply wf_grid_lt; [done|]. by eapply list_elem_of_lookup_2.
Qed.

End WellFormed.


(** ** Handler bodies *)

Section Preserves.

Variable P : State -> Prop.

Lemma preserves_lift f : (forall st, P st -> P (f st)) -> preserves P (lift f).
Proof. intros Hf st c st' [= <- <-]. apply Hf. Qed.

Lemma preserves_andThen m1 m2 :
  preserves P m1 -> preserves P m2 -> preserves P (m1 ;; m2).
Proof.
  intros H1 H2 st c st' Hm HP. unfold andThen in Hm.
  destruct (m1 st) as [[|e] st1] eqn:E1.
  - eapply H2; [exact Hm|]. eapply H1; eauto.
  - injection Hm as <- <-. eapply H1; eauto.
Qed.

Lemma preserves_for_loop body count : forall first,
  (forall i, preserves P (body i)) -> preserves P (for_loop body first count).
Proof.
  induction count as [|k IH]; intros first Hbody; cbn [for_loop].
  - by apply preserves_lift.
  - apply preserves_andThen; auto.
Qed.

Lemma preserves_redrawCanvas :
  (forall bs st, P st -> P (with_bricks bs st)) -> preserves P redrawCanvas.
Proof.
  intros Hb st c st'. unfold redrawCanvas.
  destruct (redrawBricks st (bricks st)) as [c' bs]. intros [= <- <-]. apply Hb.
Qed.

Lemma preserves_sampleFirstRow : preserves P sampleFirstRow.
Proof.
  intros st c st'. unfold sampleFirstRow.
  by destruct (legoGrid st !! 0); intros [= <- <-].
Qed.

End Preserves.

Section Frame.

Lemma doc_frame_refl st : wf st -> doc_frame st st.
Proof. intros Hwf. split; [exact Hwf|]. by repeat split. Qed.

Lemma doc_frame_with_bricks st0 bs st : doc_frame st0 st -> doc_frame st0 (with_bricks bs st).
Proof. intros H. exact H. Qed.

Lemma doc_frame_alert st0 msg st : doc_frame st0 st -> doc_frame st0 (alert msg st).
Proof. intros H. exact H. Qed.

Lemma doc_frame_writeCell st0 row col v : preserves (doc_frame st0) (writeCell row col v).
Proof.
  intros st c st' Hw (Hwf & Hsn & Hg & Hu & Hn & Hlen & Hc & He).
  pose proof (writeCell_wf _ _ _ _ _ _ Hw Hwf) as Hwf'.
  pose proof (writeCell_snapshots _ _ _ _ _ _ Hw Hwf) as Hsn'.
  unfold writeCell in Hw.
  destruct (legoGrid st !! row) as [l|]; injection Hw as <- <-.
  - split; [exact Hwf'|]. split; [congruence|].
    repeat split; try done. cbn. by rewrite length_insert.
  - split; [exact Hwf'|]. by repeat split.
Qed.

Lemma doc_frame_convertCell st0 pixels row col :
  preserves (doc_frame st0) (convertCell pixels row col).
Proof. intros st c st'. unfold convertCell. apply doc_frame_writeCell. Qed.

Lemma doc_frame_redrawCanvas st0 : preserves (doc_frame st0) redrawCanvas.
Proof. apply preserves_redrawCanvas. intros. by apply doc_frame_with_bricks. Qed.

End Frame.


(** ** [placeBrick], [undo], [initializeCanvas] on well-formed states *)

Section Handlers.

Lemma grid_lookup st (row : nat) :
  grid st !! row = readRow (store st) <$> (legoGrid st !! row).
Proof. unfold grid, rowsOf. apply list_lookup_fmap. Qed.

Lemma placeBrick_spec row col brickElement st :
  wf st ->
  exists c st', placeBrick row col brickElement st = (c, st') /\
    wf st' /\
    snapshots st' = push20 (snapshots st) (grid st) /\
    legoGrid st' = legoGrid st /\ canvasSize st' = canvasSize st /\
    currentColor st' = currentColor st /\ isEraserMode st' = isEraserMode st /\
    alerts st' = alerts st /\
    match grid st !! row with
    | None => c = Throw "TypeError" /\ grid st' = grid st /\ bricks st' = bricks st
    | Some cells =>
        c = Normal /\ grid st' = <[row := array_set cells col (brickValue st)]> (grid st)
    end.
Proof.
  intros Hwf.
  pose proof (saveState_wf _ Hwf) as Hwf1.
  pose proof (saveState_grid _ Hwf) as Hg1.
  pose proof (saveState_snapshots _ Hwf) as Hs1.
  assert (Hstep : forall f : State -> State,
    (forall s, f s = with_bricks (bricks (f s)) s) ->
    exists c st', (writeCell row col (brickValue st) ;; lift f) (saveState st) = (c, st') /\
      wf st' /\ snapshots st' = push20 (snapshots st) (grid st) /\
      legoGrid st' = legoGrid st /\ canvasSize st' = canvasSize st /\
      currentColor st' = currentColor st /\ isEraserMode st' = isEraserMode st /\
      alerts st' = alerts st /\
      match grid st !! row with
      | None => c = Throw "TypeError" /\ grid st' = grid st /\ bricks st' = bricks st
      | Some cells =>
          c = Normal /\ grid st' = <[row := array_set cells col (brickValue st)]> (grid st)
      end).
  { intros f Hf. unfold andThen. rewrite grid_lookup.
    destruct (legoGrid st !! row) as [l|] eqn:Hrow; cbn [fmap option_fmap option_map].
    - destruct (writeCell_grid row col (brickValue st) (saveState st) l Hwf1 Hrow)
        as (st2 & Hw & Hg2).
      rewrite Hw. cbn [lift]. eexists _, _. split; [reflexivity|].
      pose proof (writeCell_wf _ _ _ _ _ _ Hw Hwf1) as Hwf2.
      pose proof (writeCell_snapshots _ _ _ _ _ _ Hw Hwf1) as Hs2.
      unfold writeCell in Hw.
      change (legoGrid (saveState st)) with (legoGrid st) in Hw.
      rewrite Hrow in Hw. injection Hw as <-.
      rewrite Hf. split; [exact Hwf2|]. split; [exact (eq_trans Hs2 Hs1)|].
      repeat split; try done.
      change (grid (with_bricks _ ?s)) with (grid s). rewrite Hg2, Hg1. f_equal.
      f_equal. unfold readRow. cbn. rewrite lookup_app_l; [done|].
      eapply wf_grid_lt; [done|]. by eapply list_elem_of_lookup_2.
    - rewrite writeCell_missing_row by done. eexists _, _. split; [reflexivity|].
      split; [exact Hwf1|]. repeat split; done. }
  unfold placeBrick. change (isEraserMode (saveState st)) with (isEraserMode st).
  change (currentColor (saveState st)) with (currentColor st).
  unfold brickValue in *. destruct (isEraserMode st); apply Hstep; by intros [].
Qed.

Lemma redrawCanvas_bricks st :
  exists c bs, redrawCanvas st = (c, with_bricks bs st).
Proof.
  unfold redrawCanvas. destruct (redrawBricks st (bricks st)) as [c bs]. eauto.
Qed.

Lemma undo_spec st u g :
  wf st -> undoStack st = u ++ [g] ->
  exists c bs, undo st = (c, with_bricks bs (with_legoGrid g (with_undoStack u st))) /\
    wf (with_bricks bs (with_legoGrid g (with_undoStack u st))).
Proof.
  intros Hwf Hu. unfold undo. rewrite Hu, length_app. cbn [length].
  rewrite decide_False by lia. rewrite last_snoc, removelast_last.
  change (default [] (Some g)) with g.
  destruct (redrawCanvas_bricks (with_legoGrid g (with_undoStack u st))) as (c & bs & Hr).
  rewrite Hr. exists c, bs. split; [done|].
  eapply wf_submseteq; [| |exact Hwf]; [|done].
  unfold refs. cbn. rewrite Hu, join_app. cbn. rewrite app_nil_r.
  apply submseteq_inserts_l. apply Permutation_submseteq, Permutation_app_comm.
Qed.

(** [undo] on a history whose contents are [s ++ [x]]: the live grid
    becomes [x] and the history [s]. *)
Lemma undo_view st s x :
  wf st -> snapshots st = s ++ [x] ->
  exists c st', undo st = (c, st') /\ wf st' /\ grid st' = x /\ snapshots st' = s /\
    store st' = store st /\ canvasSize st' = canvasSize st /\
    currentColor st' = currentColor st /\ isEraserMode st' = isEraserMode st /\
    alerts st' = alerts st.
Proof.
  intros Hwf Hs.
  destruct (undoStack st) as [|g0 u0] eqn:Hu using rev_ind.
  { unfold snapshots in Hs. rewrite Hu in Hs. by destruct s. }
  clear IHu0. rename g0 into g, u0 into u.
  destruct (undo_spec st u g Hwf Hu) as (c & bs & Hundo & Hwf').
  unfold snapshots in Hs. rewrite Hu, fmap_snoc in Hs.
  apply app_inj_tail in Hs as [Hs Hx].
  exists c, (with_bricks bs (with_legoGrid g (with_undoStack u st))).
  split; [done|]. split; [done|]. split; [exact Hx|]. split; [exact Hs|].
  by repeat split.
Qed.

Lemma undo_empty st :
  undoStack st = [] -> undo st = (Normal, alert "Nothing to undo!" st).
Proof. intros Hu. unfold undo. by rewrite Hu. Qed.

Lemma initializeCanvas_wf st : wf st -> wf (initializeCanvas st).
Proof.
  intros [Hall Hnd]. unfold wf, refs in *. cbn.
  apply Forall_app in Hall as [_ Hall]. apply NoDup_app in Hnd as (_ & _ & Hnd).
  rewrite length_app, length_replicate. split.
  - apply Forall_app. split.
    + apply Forall_forall. intros l Hl. apply elem_of_seq in Hl. lia.
    + eapply Forall_impl; [exact Hall|]. intros l Hl. cbn in *. lia.
  - apply NoDup_app. split; [apply NoDup_seq|]. split; [|exact Hnd].
    intros l Hl Hl'. apply elem_of_seq in Hl.
    rewrite Forall_forall in Hall. specialize (Hall l Hl'). cbn in Hall. lia.
Qed.

Lemma initializeCanvas_grid st :
  grid (initializeCanvas st) =
    replicate (canvasSize st) (replicate (canvasSize st) CNull).
Proof.
  pose proof (rowsOf_fresh (store st)
    (replicate (canvasSize st) (replicate (canvasSize st) CNull))) as H.
  rewrite length_replicate in H. exact H.
Qed.

Lemma initializeCanvas_snapshots st :
  wf st -> snapshots (initializeCanvas st) = snapshots st.
Proof.
  intros Hwf. unfold snapshots. cbn.
  apply Forall_fmap_ext_1, Forall_forall. intros s0 Hs.
  by apply rowsOf_app, wf_saved_Forall.
Qed.

End Handlers.


(** ** Sessions *)

Section Sessions.

Variable drawImage : Image -> nat -> DrawResult.

Lemma processImageToLego_spec img st :
  wf st ->
  exists c st', processImageToLego drawImage img st = (c, st') /\
    wf st' /\ snapshots st' = push20 (snapshots st) (grid st) /\
    legoGrid st' = legoGrid st /\ canvasSize st' = canvasSize st /\
    currentColor st' = currentColor st /\ isEraserMode st' = isEraserMode st.
Proof.
  intros Hwf.
  pose proof (saveState_wf _ Hwf) as Hwf1.
  pose proof (saveState_snapshots _ Hwf) as Hs1.
  unfold processImageToLego.
  destruct (drawImage img (canvasSize (saveState st))) as [msg|e|pixels].
  - eexists _, _. split; [reflexivity|]. split; [exact Hwf1|]. by split.
  - eexists _, _. split; [reflexivity|]. split; [exact Hwf1|]. by split.
  - match goal with |- context [?m (saveState st)] => set (body := m) end.
    destruct (body (saveState st)) as [c st'] eqn:Hb.
    assert (Hf : doc_frame (saveState st) st').
    { eapply (preserves_andThen _ _ _ _ _ _ _ _ Hb), doc_frame_refl, Hwf1. }
    destruct Hf as (Hwf' & Hs' & Hg' & _ & Hn' & _ & Hc' & He').
    exists c, st'. split; [done|]. split; [done|]. split; [congruence|].
    by repeat split.
    Unshelve.
    + apply preserves_for_loop. intros row. apply preserves_for_loop. intros col.
      apply doc_frame_convertCell.
    + apply preserves_andThen; [apply preserves_sampleFirstRow|].
      apply preserves_andThen; [apply doc_frame_redrawCanvas|].
      apply preserves_lift. intros. by apply doc_frame_alert.
Qed.

Lemma push20_length_le {A} (s : list A) x : length s <= 20 -> length (push20 s x) <= 20.
Proof. apply push20_bound. Qed.

Lemma handle_inv e st : session_inv st -> session_inv (snd (handle drawImage e st)).
Proof.
  intros [Hwf Hlen]. unfold session_inv.
  destruct e as [k|i| | |confirmed|value confirmed|img]; cbn [handle].
  - destruct (bricks st !! k) as [bk|]; [|done].
    destruct (placeBrick_spec (brow bk) (bcol bk) k st Hwf)
      as (c & st' & -> & Hwf' & Hs & _).
    cbn [snd]. split; [done|]. rewrite <- length_snapshots, Hs.
    apply push20_bound. by rewrite length_snapshots.
  - unfold swatchClick. by destruct (legoColors !! i).
  - done.
  - destruct (undoStack st) as [|g u _] eqn:Hu using rev_ind.
    + rewrite undo_empty by done. split; [exact Hwf|]. cbn. rewrite Hu. cbn. lia.
    + destruct (undo_spec st u g Hwf Hu) as (c & bs & -> & Hwf').
      split; [done|]. cbn. rewrite length_app in Hlen. lia.
  - destruct confirmed; [|done]. cbn [clearCanvas snd]. split.
    + by apply initializeCanvas_wf, saveState_wf.
    + change (undoStack (initializeCanvas (saveState st)))
        with (undoStack (saveState st)).
      rewrite <- length_snapshots, saveState_snapshots by done.
      apply push20_bound. by rewrite length_snapshots.
  - unfold canvasSizeChange. cbn [snd]. destruct confirmed; [|done]. split; [|done].
    by apply initializeCanvas_wf.
  - destruct img as [img|]; [|done]. cbn [generateLegoArt].
    destruct (processImageToLego_spec img st Hwf) as (c & st' & -> & Hwf' & Hs & _).
    cbn [snd]. split; [done|]. rewrite <- length_snapshots, Hs.
    apply push20_bound. by rewrite length_snapshots.
Qed.

Lemma run_inv es : forall st, session_inv st -> session_inv (run drawImage es st).
Proof.
  induction es as [|e es IH]; intros st H; [done|].
  cbn. apply IH. by apply handle_inv.
Qed.

Lemma initialState_inv : session_inv initialState.
Proof.
  split; [|cbn; lia]. apply (initializeCanvas_wf globals).
  split; [apply Forall_nil_2|apply NoDup_nil_2].
Qed.

Lemma reachable_inv es : session_inv (run drawImage es initialState).
Proof. apply run_inv, initialState_inv. Qed.

Lemma reachable_wf es : wf (run drawImage es initialState).
Proof. apply reachable_inv. Qed.

End Sessions.

(** ** The bounded history *)

Section History.

Lemma tail_drop {A} (n : nat) : forall k : list A, tail (drop n k) = drop (S n) k.
Proof.
  induction n as [|n IH]; intros [|y k]; try done. apply IH.
Qed.

Lemma push20_lastN {A} (l : list A) x : push20 (lastN 20 l) x = lastN 20 (l ++ [x]).
Proof.
  unfold push20, lastN. rewrite !length_app, length_drop. cbn [length].
  destruct (decide (20 < length l - (length l - 20) + 1)) as [H|H].
  - replace (length l + 1 - 20) with (S (length l - 20)) by lia.
    rewrite <- drop_app_le by lia. apply tail_drop.
  - replace (length l - 20) with 0 by lia. replace (length l + 1 - 20) with 0 by lia.
    done.
Qed.

Lemma lastN_nil {A} (n : nat) : lastN n (@nil A) = [].
Proof. done. Qed.

Lemma useTool_views t st :
  wf st ->
  wf (useTool t st) /\ grid (useTool t st) = grid st /\
  snapshots (useTool t st) = snapshots st.
Proof.
  intros Hwf. destruct t as [|i]; cbn; [done|].
  unfold swatchClick. by destruct (legoColors !! i).
Qed.

Lemma useTools_views ts : forall st,
  wf st ->
  wf (fold_left (fun s t => useTool t s) ts st) /\
  grid (fold_left (fun s t => useTool t s) ts st) = grid st /\
  snapshots (fold_left (fun s t => useTool t s) ts st) = snapshots st.
Proof.
  induction ts as [|t ts IH]; intros st Hwf; [done|]. cbn [fold_left].
  destruct (useTool_views t st Hwf) as (Hwf1 & Hg1 & Hs1).
  destruct (IH _ Hwf1) as (Hwf2 & Hg2 & Hs2).
  split; [done|]. split; congruence.
Qed.

Lemma mutate_views m st :
  wf st -> wf (mutate m st) /\ snapshots (mutate m st) = push20 (snapshots st) (grid st).
Proof.
  intros Hwf. unfold mutate.
  destruct (useTools_views (tools m) st Hwf) as (Hwf1 & Hg1 & Hs1).
  destruct (placeBrick_spec (mrow m) (mcol m) (melement m) _ Hwf1)
    as (c & st' & -> & Hwf' & Hs & _).
  cbn [snd]. split; [done|]. by rewrite Hs, Hg1, Hs1.
Qed.

Lemma mutateAll_wf ms : forall st, wf st -> wf (mutateAll ms st).
Proof.
  induction ms as [|m ms IH]; intros st Hwf; [done|].
  cbn. apply IH. by apply mutate_views.
Qed.

Lemma mutateAll_snapshots ms : forall st L,
  wf st -> snapshots st = lastN 20 L ->
  snapshots (mutateAll ms st) = lastN 20 (L ++ trace ms st).
Proof.
  induction ms as [|m ms IH]; intros st L Hwf HL.
  - cbn. by rewrite app_nil_r.
  - destruct (mutate_views m st Hwf) as [Hwf1 Hs1].
    cbn [mutateAll fold_left trace].
    change (fold_left (fun s m0 => mutate m0 s) ms (mutate m st))
      with (mutateAll ms (mutate m st)).
    rewrite (IH _ (L ++ [grid st]) Hwf1).
    + by rewrite <- app_assoc.
    + by rewrite Hs1, HL, push20_lastN.
Qed.

Lemma length_trace ms : forall st, length (trace ms st) = length ms.
Proof. induction ms as [|m ms IH]; intros st; cbn; [done|]. by rewrite IH. Qed.

Lemma drop_trace (k : nat) : forall ms st,
  drop k (trace ms st) = trace (drop k ms) (mutateAll (take k ms) st).
Proof.
  induction k as [|k IH]; intros ms st; [by rewrite !drop_0|].
  destruct ms as [|m ms]; [done|]. cbn. apply IH.
Qed.

(** As many [undo]s as there are entries in the last part [tr] of the
    history give back the grid of the oldest of them. *)
Lemma undoTimes_oldest (n : nat) : forall st pre x tr,
  wf st -> snapshots st = pre ++ x :: tr -> length tr = n ->
  grid (undoTimes (S n) st) = x /\ snapshots (undoTimes (S n) st) = pre.
Proof.
  induction n as [|n IH]; intros st pre x tr Hwf Hs Hn.
  - destruct tr; [|done].
    destruct (undo_view st pre x Hwf Hs) as (c & st' & Hu & _ & Hg & Hs' & _).
    cbn. by rewrite Hu.
  - destruct tr as [|y0 tr0 _] using rev_ind; [done|].
    rewrite length_app in Hn. cbn in Hn.
    destruct (undo_view st (pre ++ x :: tr0) y0 Hwf) as (c & st' & Hu & Hwf' & _ & Hs' & _).
    { by rewrite Hs, <- app_assoc. }
    change (undoTimes (S (S n)) st) with (undoTimes (S n) (snd (undo st))).
    rewrite Hu. cbn [snd]. apply (IH _ _ _ tr0); [done|done|lia].
Qed.

End History.


(** ** The claims about the history *)

Lemma undo_after_push st (s : list (list (list Cell))) x :
  wf st -> snapshots st = push20 s x -> grid (snd (undo st)) = x.
Proof.
  intros Hwf Hs.
  pose proof (last_push20 s x) as Hlast.
  destruct (push20 s x) as [|y0 s0 _] using rev_ind; [done|].
  rewrite last_snoc in Hlast. injection Hlast as ->.
  destruct (undo_view st s0 x Hwf Hs) as (c & st' & Hu & _ & Hg & _).
  by rewrite Hu.
Qed.

(** C3. The undo history never holds more than 20 saved states after an
    event has been handled; on a full history [saveState] drops the
    oldest entry and appends the new one; and after 25 cell mutations of
    a document with an empty history there are exactly 20 saved states,
    20 calls of [undo] then giving back the grid as it was after the
    fifth mutation. *)
Theorem history_bounded_fifo (drawImage : Image -> nat -> DrawResult) :
  (forall es, length (undoStack (run drawImage es initialState)) <= 20) /\
  (forall es, let st := run drawImage es initialState in
     length (undoStack st) = 20 ->
     snapshots (saveState st) = tail (snapshots st) ++ [grid st]) /\
  (forall es ms, let st0 := run drawImage es initialState in
     undoStack st0 = [] -> length ms = 25 ->
     length (undoStack (mutateAll ms st0)) = 20 /\
     grid (undoTimes 20 (mutateAll ms st0)) = grid (mutateAll (take 5 ms) st0)).
Proof.
  split; [|split].
  - intros es. apply reachable_inv.
  - intros es st Hlen. pose proof (reachable_wf drawImage es) as Hwf. fold st in Hwf.
    rewrite saveState_snapshots by done. unfold push20.
    rewrite length_app, length_snapshots, Hlen. cbn.
    destruct (snapshots st) as [|s0 sn] eqn:Hs; [|done].
    apply (f_equal length) in Hs. rewrite length_snapshots, Hlen in Hs. done.
  - intros es ms st0 Hempty Hms.
    pose proof (reachable_wf drawImage es) as Hwf. fold st0 in Hwf.
    assert (Hs0 : snapshots st0 = lastN 20 []).
    { unfold snapshots. by rewrite Hempty. }
    pose proof (mutateAll_snapshots ms st0 [] Hwf Hs0) as Hs.
    rewrite app_nil_l in Hs. unfold lastN in Hs.
    rewrite length_trace, Hms in Hs. change (25 - 20) with 5 in Hs.
    rewrite drop_trace in Hs.
    pose proof (mutateAll_wf ms st0 Hwf) as Hwf'.
    assert (Hlen : length (drop 5 ms) = 20) by (rewrite length_drop; lia).
    destruct (drop 5 ms) as [|m rest] eqn:Hd; [done|].
    cbn [trace] in Hs. split.
    + rewrite <- length_snapshots, Hs. cbn. rewrite length_trace.
      cbn in Hlen. lia.
    + eapply (undoTimes_oldest 19 _ []); [done|exact Hs|].
      rewrite length_trace. cbn in Hlen. lia.
Qed.

Lemma history_bounded_fifo_witness :
  (let st := run noCanvas (ChangeSize 2 true :: replicate 20 (ClickBrick 0)) initialState in
   snapshots (saveState st) = tail (snapshots st) ++ [grid st]) /\
  (let st0 := run noCanvas [ChangeSize 2 true] initialState in
   length (undoStack (mutateAll twentyFiveMutations st0)) = 20 /\
   grid (undoTimes 20 (mutateAll twentyFiveMutations st0))
     = grid (mutateAll (take 5 twentyFiveMutations) st0)).
Proof.
  destruct (history_bounded_fifo noCanvas) as (_ & Hfifo & Hundo). split.
  - exact (Hfifo (ChangeSize 2 true :: replicate 20 (ClickBrick 0))
             ltac:(vm_compute; reflexivity)).
  - exact (Hundo [ChangeSize 2 true] twentyFiveMutations
             ltac:(vm_compute; reflexivity) ltac:(vm_compute; reflexivity)).
Defined.

(** C6. A mutating operation ([placeBrick], [processImageToLego]) first
    stores the contents the grid has before the mutation as the newest
    entry of the history, and one [undo] right after it gives the live
    grid exactly those contents. *)
Theorem mutation_then_undo_restores (drawImage : Image -> nat -> DrawResult) es :
  let st := run drawImage es initialState in
  (forall row col brickElement,
     let st' := snd (placeBrick row col brickElement st) in
     snapshots st' = push20 (snapshots st) (grid st) /\
     last (snapshots st') = Some (grid st) /\
     grid (snd (undo st')) = grid st) /\
  (forall img,
     let st' := snd (processImageToLego drawImage img st) in
     snapshots st' = push20 (snapshots st) (grid st) /\
     last (snapshots st') = Some (grid st) /\
     grid (snd (undo st')) = grid st).
Proof.
  intros st. pose proof (reachable_wf drawImage es) as Hwf. fold st in Hwf. split.
  - intros row col brickElement.
    destruct (placeBrick_spec row col brickElement st Hwf)
      as (c & st1 & Hp & Hwf1 & Hs1 & _).
    rewrite Hp. cbn [snd]. split; [done|]. split.
    + rewrite Hs1. apply last_push20.
    + by eapply undo_after_push.
  - intros img.
    destruct (processImageToLego_spec drawImage img st Hwf)
      as (c & st1 & Hp & Hwf1 & Hs1 & _).
    rewrite Hp. cbn [snd]. split; [done|]. split.
    + rewrite Hs1. apply last_push20.
    + by eapply undo_after_push.
Qed.

(** C8. Once [saveState] has stored a copy of the grid, writing a cell
    of the live grid changes no stored copy; after [placeBrick] or
    [processImageToLego] the history holds the copies it held, with their
    contents, under the one just pushed (the oldest leaving when there
    would be more than 20). *)
Theorem snapshots_unaffected_by_writes (drawImage : Image -> nat -> DrawResult) es :
  let st := saveState (run drawImage es initialState) in
  last (snapshots st) = Some (grid (run drawImage es initialState)) /\
  (forall row col v, snapshots (snd (writeCell row col v st)) = snapshots st) /\
  (forall row col brickElement,
     snapshots (snd (placeBrick row col brickElement st))
       = push20 (snapshots st) (grid st)) /\
  (forall img,
     snapshots (snd (processImageToLego drawImage img st))
       = push20 (snapshots st) (grid st)).
Proof.
  intros st. pose proof (reachable_wf drawImage es) as Hwf0.
  pose proof (saveState_wf _ Hwf0) as Hwf. fold st in Hwf.
  split; [|split; [|split]].
  - unfold st. rewrite saveState_snapshots by done. apply last_push20.
  - intros row col v. destruct (writeCell row col v st) as [c st'] eqn:Hw.
    by eapply writeCell_snapshots.
  - intros row col brickElement.
    by destruct (placeBrick_spec row col brickElement st Hwf) as (c & st1 & -> & _ & Hs1 & _).
  - intros img.
    by destruct (processImageToLego_spec drawImage img st Hwf) as (c & st1 & -> & _ & Hs1 & _).
Qed.

(** C9. [undo] on an empty history completes normally after the alert
    "Nothing to undo!": the grid, the store and the brick elements are
    as before and the history is still empty. *)
Theorem undo_on_empty_history st :
  undoStack st = [] ->
  undo st = (Normal, alert "Nothing to undo!" st) /\
  grid (snd (undo st)) = grid st /\
  store (snd (undo st)) = store st /\
  bricks (snd (undo st)) = bricks st /\
  undoStack (snd (undo st)) = [].
Proof. intros Hu. rewrite undo_empty by done. by repeat split. Qed.

Lemma undo_on_empty_history_witness :
  undo initialState = (Normal, alert "Nothing to undo!" initialState) /\
  grid (snd (undo initialState)) = grid initialState /\
  store (snd (undo initialState)) = store initialState /\
  bricks (snd (undo initialState)) = bricks initialState /\
  undoStack (snd (undo initialState)) = [].
Proof. apply (undo_on_empty_history initialState). reflexivity. Defined.

(** C10. With the eraser, [placeBrick] on a cell that already holds
    [null] completes normally and leaves the grid as it was, yet the
    history gets one more entry (at most 20 being kept), and the [undo]
    that follows gives a grid equal to the current one. *)
Theorem erasing_empty_cell_uses_history (drawImage : Image -> nat -> DrawResult)
    es (row col brickElement : nat) cells :
  let st := run drawImage es initialState in
  isEraserMode st = true ->
  grid st !! row = Some cells -> cells !! col = Some CNull ->
  let st' := snd (placeBrick row col brickElement st) in
  fst (placeBrick row col brickElement st) = Normal /\
  grid st' = grid st /\
  length (undoStack st') = Nat.min (S (length (undoStack st))) 20 /\
  grid (snd (undo st')) = grid st'.
Proof.
  intros st He Hrow Hcol. pose proof (reachable_inv drawImage es) as [Hwf Hlen].
  fold st in Hwf, Hlen.
  destruct (placeBrick_spec row col brickElement st Hwf)
    as (c & st1 & Hp & Hwf1 & Hs1 & _ & _ & _ & _ & _ & Hg).
  rewrite Hp. cbn [fst snd]. rewrite Hrow in Hg. destruct Hg as [-> Hg].
  assert (Hsame : grid st1 = grid st).
  { rewrite Hg. unfold brickValue. rewrite He, array_set_same by done.
    by apply list_insert_id. }
  split; [done|]. split; [done|]. split.
  - rewrite <- !length_snapshots, Hs1.
    destruct (length_push20 (snapshots st) (grid st)) as [H|H]; [done|].
    rewrite length_snapshots in H. lia.
  - rewrite Hsame. by eapply undo_after_push.
Qed.

Lemma erasing_empty_cell_uses_history_witness :
  let st := run noCanvas [ClickEraser] initialState in
  let st' := snd (placeBrick 3 4 100 st) in
  fst (placeBrick 3 4 100 st) = Normal /\
  grid st' = grid st /\
  length (undoStack st') = Nat.min (S (length (undoStack st))) 20 /\
  grid (snd (undo st')) = grid st'.
Proof.
  exact (erasing_empty_cell_uses_history noCanvas [ClickEraser] 3 4 100
           (replicate 32 CNull) ltac:(vm_compute; reflexivity)
           ltac:(vm_compute; reflexivity) ltac:(vm_compute; reflexivity)).
Defined.

(** ** The claims about resizing and about coordinates *)

(** C4, as stated, fails: after one cell mutation and a confirmed change
    of the size to 16, the history still holds the state saved by the
    mutation. *)
Lemma resize_clears_history_counterexample :
  let st := mutateAll [clickCell 0 0] initialState in
  let st' := canvasSizeChange 16 true st in
  grid st' = replicate 16 (replicate 16 CNull) /\
  length (undoStack st') = 1 /\
  snapshots st' = [replicate 32 (replicate 32 CNull)] /\
  undoStack st' <> [].
Proof. vm_compute. repeat split; discriminate. Qed.

(** C4, amended. A confirmed change of the grid size gives a grid of the
    new dimension with every cell [null], and [canvasSize] is the new
    dimension; the undo history is not emptied: it holds the same saved
    states, with the same contents, as before the change. *)
Theorem resize_gives_empty_grid_keeps_history
    (drawImage : Image -> nat -> DrawResult) es (newSize : nat) :
  let st := run drawImage es initialState in
  let st' := canvasSizeChange newSize true st in
  canvasSize st' = newSize /\
  grid st' = replicate newSize (replicate newSize CNull) /\
  undoStack st' = undoStack st /\
  snapshots st' = snapshots st.
Proof.
  intros st st'. pose proof (reachable_wf drawImage es) as Hwf. fold st in Hwf.
  unfold st', canvasSizeChange. split; [done|]. split; [|split; [done|]].
  - apply (initializeCanvas_grid (with_canvasSize newSize st)).
  - apply (initializeCanvas_snapshots (with_canvasSize newSize st)). exact Hwf.
Qed.

(** C7, as stated, fails: on the 2 x 2 document, [placeBrick] with the
    column 5 raises no error, lengthens row 0 and pushes on the history;
    with the row 5 it ends by a [TypeError] after the history has been
    pushed on. *)
Lemma placeBrick_validates_counterexample :
  (let r := placeBrick 0 5 0 smallState in
   fst r = Normal /\
   grid (snd r) = [[CNull; CNull; CUndefined; CUndefined; CUndefined; CColor "#C91A09"];
                   [CNull; CNull]] /\
   grid (snd r) <> grid smallState /\
   length (undoStack (snd r)) = S (length (undoStack smallState))) /\
  (let r := placeBrick 5 0 0 smallState in
   fst r = Throw "TypeError" /\
   length (undoStack (snd r)) = S (length (undoStack smallState))).
Proof. vm_compute. repeat split; discriminate. Qed.

(** C7, amended. [placeBrick] does not check its coordinates and has no
    out-of-bounds result. For a row that exists and a column inside it,
    it completes normally, after pushing the grid on the history, and
    sets the cell to the selected colour, or to [null] with the eraser,
    every other cell keeping its value. *)
Theorem placeBrick_in_bounds (drawImage : Image -> nat -> DrawResult)
    es (row col brickElement : nat) cells :
  let st := run drawImage es initialState in
  grid st !! row = Some cells -> col < length cells ->
  let st' := snd (placeBrick row col brickElement st) in
  fst (placeBrick row col brickElement st) = Normal /\
  grid st' = <[row := <[col := brickValue st]> cells]> (grid st) /\
  gridCell st' row col = Some (brickValue st) /\
  (forall row' col', (row', col') <> (row, col) ->
     gridCell st' row' col' = gridCell st row' col') /\
  snapshots st' = push20 (snapshots st) (grid st).
Proof.
  intros st Hrow Hcol. pose proof (reachable_wf drawImage es) as Hwf. fold st in Hwf.
  destruct (placeBrick_spec row col brickElement st Hwf)
    as (c & st1 & Hp & Hwf1 & Hs1 & _ & _ & _ & _ & _ & Hg).
  rewrite Hp. cbn [fst snd]. rewrite Hrow in Hg. destruct Hg as [-> Hg].
  rewrite array_set_in_range in Hg by done.
  pose proof (lookup_lt_Some _ _ _ Hrow) as Hlt.
  split; [done|]. split; [done|]. split; [|split; [|done]].
  - unfold gridCell. rewrite Hg, list_lookup_insert_eq by done. cbn.
    unfold cellAt. by rewrite list_lookup_insert_eq.
  - intros row' col' Hne. unfold gridCell. rewrite Hg.
    destruct (decide (row' = row)) as [->|Hr].
    + rewrite list_lookup_insert_eq by done. rewrite Hrow. cbn. unfold cellAt.
      rewrite list_lookup_insert_ne; [done|]. intros ->. by apply Hne.
    + by rewrite list_lookup_insert_ne.
Qed.

Lemma placeBrick_in_bounds_witness :
  let st := run noCanvas [ChangeSize 2 true; ClickBrick 0] initialState in
  let st' := snd (placeBrick 1 0 2 st) in
  fst (placeBrick 1 0 2 st) = Normal /\
  grid st' = <[1 := <[0 := brickValue st]> [CNull; CNull]]> (grid st) /\
  gridCell st' 1 0 = Some (brickValue st) /\
  (forall row' col', (row', col') <> (1, 0) ->
     gridCell st' row' col' = gridCell st row' col') /\
  snapshots st' = push20 (snapshots st) (grid st).
Proof.
  exact (placeBrick_in_bounds noCanvas [ChangeSize 2 true; ClickBrick 0] 1 0 2
           [CNull; CNull] ltac:(vm_compute; reflexivity) ltac:(vm_compute; lia)).
Defined.

(** ** Palette closure *)

Section Palette.

Variable drawImage : Image -> nat -> DrawResult.

Lemma closer_fold_code r0 g0 b0 (l : list LegoColor) : forall st,
  fst (fold_left (closer r0 g0 b0) l st) = fst st \/
  fst (fold_left (closer r0 g0 b0) l st) ∈ (hex <$> l).
Proof.
  induction l as [|c l IH]; intros st; [by left|]. cbn [fold_left].
  destruct (IH (closer r0 g0 b0 st c)) as [H|H].
  - rewrite H. unfold closer.
    destruct (PrimFloat.ltb _ _); [right|by left]. cbn. apply list_elem_of_here.
  - right. cbn. by apply list_elem_of_further.
Qed.

(** Whatever the operands, numbers or not, the result is a palette code. *)
Lemma findClosestLegoColor_in_palette r0 g0 b0 :
  findClosestLegoColor r0 g0 b0 ∈ paletteCodes.
Proof.
  unfold findClosestLegoColor, findClosestIn.
  destruct (closer_fold_code r0 g0 b0 legoColors
              (match legoColors with c :: _ => hex c | [] => EmptyString end, infinity))
    as [H|H]; [|exact H].
  rewrite H. cbn. apply list_elem_of_here.
Qed.

Lemma array_set_in_palette arr col v :
  Forall cell_in_palette arr -> cell_in_palette v ->
  Forall cell_in_palette (array_set arr col v).
Proof.
  intros Harr Hv. unfold array_set. destruct (decide (col < length arr)).
  - by apply Forall_insert.
  - apply Forall_app. split; [done|]. apply Forall_app. split.
    + by apply Forall_replicate.
    + by apply Forall_singleton.
Qed.

Lemma readRow_in_palette h l :
  Forall (Forall cell_in_palette) h -> Forall cell_in_palette (readRow h l).
Proof.
  intros Hh. unfold readRow. destruct (h !! l) as [row|] eqn:Hl; cbn; [|done].
  rewrite Forall_forall in Hh. apply Hh. by eapply list_elem_of_lookup_2.
Qed.

Lemma rowsOf_in_palette h g :
  Forall (Forall cell_in_palette) h -> Forall (Forall cell_in_palette) (rowsOf h g).
Proof.
  intros Hh. unfold rowsOf. apply Forall_fmap, Forall_forall. intros l _.
  by apply readRow_in_palette.
Qed.

Lemma palette_closed_writeCell row col v :
  cell_in_palette v -> preserves palette_closed (writeCell row col v).
Proof.
  intros Hv st c st'. unfold writeCell.
  destruct (legoGrid st !! row) as [l|]; intros [= <- <-] [Hc Hs]; [|done].
  split; [done|]. cbn. apply Forall_insert; [done|].
  apply array_set_in_palette; [by apply readRow_in_palette|done].
Qed.

Lemma palette_closed_saveState st : palette_closed st -> palette_closed (saveState st).
Proof.
  intros [Hc Hs]. split; [done|]. cbn. apply Forall_app. split; [done|].
  by apply rowsOf_in_palette.
Qed.

Lemma palette_closed_initializeCanvas st :
  palette_closed st -> palette_closed (initializeCanvas st).
Proof.
  intros [Hc Hs]. split; [done|]. cbn. apply Forall_app. split; [done|].
  apply Forall_replicate. by apply Forall_replicate.
Qed.

Lemma palette_closed_redrawCanvas : preserves palette_closed redrawCanvas.
Proof. by apply preserves_redrawCanvas. Qed.

Lemma palette_closed_placeBrick row col brickElement :
  preserves palette_closed (placeBrick row col brickElement).
Proof.
  intros st c st' Hp Hpc. unfold placeBrick in Hp.
  pose proof (palette_closed_saveState _ Hpc) as Hpc1.
  destruct (isEraserMode (saveState st)).
  - eapply (preserves_andThen palette_closed); [| |exact Hp|exact Hpc1].
    + by apply palette_closed_writeCell.
    + by apply preserves_lift.
  - eapply (preserves_andThen palette_closed); [| |exact Hp|exact Hpc1].
    + apply palette_closed_writeCell. apply Hpc.
    + by apply preserves_lift.
Qed.

Lemma palette_closed_processImageToLego img :
  preserves palette_closed (processImageToLego drawImage img).
Proof.
  intros st c st' Hp Hpc. unfold processImageToLego in Hp.
  pose proof (palette_closed_saveState _ Hpc) as Hpc1.
  destruct (drawImage img (canvasSize (saveState st))) as [msg|e|pixels].
  - by injection Hp as <- <-.
  - by injection Hp as <- <-.
  - eapply (preserves_andThen palette_closed); [| |exact Hp|exact Hpc1].
    + apply preserves_for_loop. intros row. apply preserves_for_loop. intros col.
      intros s c0 s'. unfold convertCell. apply palette_closed_writeCell.
      apply findClosestLegoColor_in_palette.
    + apply preserves_andThen; [apply preserves_sampleFirstRow|].
      apply preserves_andThen; [apply palette_closed_redrawCanvas|].
      by apply preserves_lift.
Qed.

Lemma palette_closed_undo : preserves palette_closed undo.
Proof.
  intros st c st'. unfold undo. destruct (decide (length (undoStack st) = 0)).
  - by intros [= <- <-].
  - intros Hr Hpc. by eapply palette_closed_redrawCanvas.
Qed.

Lemma palette_closed_handle e : preserves palette_closed (handle drawImage e).
Proof.
  intros st c st'.
  destruct e as [k|i| | |confirmed|value confirmed|img]; cbn [handle].
  - destruct (bricks st !! k) as [bk|]; [apply palette_closed_placeBrick|].
    by intros [= <- <-].
  - intros [= <- <-] [Hc Hs]. unfold swatchClick.
    destruct (legoColors !! i) as [color|] eqn:Hi; [|done].
    split; [|done]. change (hex color ∈ hex <$> legoColors).
    apply list_elem_of_fmap_2. by eapply list_elem_of_lookup_2.
  - by intros [= <- <-].
  - apply palette_closed_undo.
  - intros [= <- <-] Hpc. destruct confirmed; [|done].
    by apply palette_closed_initializeCanvas, palette_closed_saveState.
  - intros [= <- <-] Hpc. unfold canvasSizeChange. destruct confirmed; [|done].
    by apply (palette_closed_initializeCanvas (with_canvasSize value st)).
  - destruct img as [img|]; [apply palette_closed_processImageToLego|].
    by intros [= <- <-].
Qed.

Lemma palette_closed_run es : forall st,
  palette_closed st -> palette_closed (run drawImage es st).
Proof.
  induction es as [|e es IH]; intros st H; [done|]. cbn. apply IH.
  destruct (handle drawImage e st) as [c st'] eqn:He.
  by eapply palette_closed_handle.
Qed.

Lemma palette_closed_initialState : palette_closed initialState.
Proof.
  split.
  - cbn. apply list_elem_of_here.
  - cbn -[replicate]. apply Forall_replicate. by apply Forall_replicate.
Qed.

End Palette.

(** C5. After any sequence of events (brick clicks with a colour or the
    eraser, tool choices, undo, clear, size changes, image generation)
    from the loaded page, every cell of the live grid that holds a colour
    holds a code of [legoColors]; so does every cell of the saved states,
    and the selected colour is a palette code as well. *)
Theorem palette_closure (drawImage : Image -> nat -> DrawResult) es :
  let st := run drawImage es initialState in
  Forall (Forall cell_in_palette) (grid st) /\
  Forall (Forall (Forall cell_in_palette)) (snapshots st) /\
  currentColor st ∈ paletteCodes.
Proof.
  intros st.
  destruct (palette_closed_run drawImage es _ palette_closed_initialState) as [Hc Hs].
  fold st in Hc, Hs. split; [|split; [|done]].
  - by apply rowsOf_in_palette.
  - unfold snapshots. apply Forall_fmap, Forall_forall. intros g _.
    by apply rowsOf_in_palette.
Qed.


(** ** The loops of [processImageToLego] *)

Section Conversion.

Lemma cellAt_fill_row f count : forall first arr col,
  cellAt (fill_row f first count arr) col =
    if decide (first <= col < first + count) then f col else cellAt arr col.
Proof.
  induction count as [|k IH]; intros first arr col; cbn [fill_row].
  - rewrite decide_False by lia. done.
  - rewrite IH, cellAt_array_set.
    destruct (decide (S first <= col < S first + k)),
      (decide (first <= col < first + S k)), (decide (first = col));
      try done; try lia. by subst.
Qed.

Lemma readRow_lookup (h : list (list Cell)) (l : loc) :
  l < length h -> h !! l = Some (readRow h l).
Proof.
  intros Hl. unfold readRow.
  destruct (h !! l) as [x|] eqn:Hx; [done|].
  apply lookup_ge_None_1 in Hx. lia.
Qed.

Lemma with_store_same st : with_store (store st) st = st.
Proof. by destruct st. Qed.

Lemma inner_loop pixels row l count : forall first st,
  legoGrid st !! row = Some l -> l < length (store st) ->
  for_loop (fun col => convertCell pixels row col) first count st =
    (Normal,
     with_store
       (<[l := fill_row
                 (fun col => CColor
                    (findClosestLegoColor
                       (pixelAt pixels ((row * canvasSize st + col) * 4))
                       (pixelAt pixels ((row * canvasSize st + col) * 4 + 1))
                       (pixelAt pixels ((row * canvasSize st + col) * 4 + 2))))
                 first count (readRow (store st) l)]> (store st)) st).
Proof.
  induction count as [|k IH]; intros first st Hrow Hl; cbn [for_loop fill_row].
  - unfold lift, id. f_equal. rewrite list_insert_id, with_store_same; [done|].
    by apply readRow_lookup.
  - unfold andThen. cbn beta. unfold convertCell at 1. unfold writeCell at 1.
    rewrite Hrow.
    rewrite IH; [|exact Hrow|by cbn; rewrite length_insert].
    f_equal. unfold with_store at 1 3. cbn.
    f_equal. rewrite list_insert_insert_eq. f_equal.
    unfold readRow at 1. by rewrite list_lookup_insert_eq.
Qed.

Lemma outer_loop pixels n count : forall first st,
  wf st -> canvasSize st = n -> first + count <= length (legoGrid st) ->
  exists st',
    for_loop (fun row => for_loop (fun col => convertCell pixels row col) 0 n)
      first count st = (Normal, st') /\
    doc_frame st st' /\
    (forall row col, first <= row < first + count -> col < n ->
       gridCell st' row col = Some (CColor (convertedColor pixels n row col))) /\
    (forall row, ~ (first <= row < first + count) -> grid st' !! row = grid st !! row).
Proof.
  induction count as [|k IH]; intros first st Hwf Hn Hlen; cbn [for_loop].
  - exists st. split; [done|]. split; [by apply doc_frame_refl|].
    split; [intros; lia|done].
  - destruct (lookup_lt_is_Some_2 (legoGrid st) first) as [l Hrow]; [lia|].
    assert (Hl : l < length (store st)).
    { eapply wf_grid_lt; [done|]. by eapply list_elem_of_lookup_2. }
    unfold andThen. rewrite (inner_loop pixels first l n 0 st Hrow Hl).
    set (filled := fill_row _ 0 n _).
    set (st1 := with_store (<[l := filled]> (store st)) st).
    assert (Hwf1 : wf st1).
    { destruct Hwf as [Hall Hnd]. split; [|exact Hnd]. cbn. by rewrite length_insert. }
    assert (Hg1 : grid st1 = <[first := filled]> (grid st)).
    { unfold grid. cbn. apply rowsOf_insert_row; auto using wf_grid_NoDup. }
    assert (Hs1 : snapshots st1 = snapshots st).
    { unfold snapshots. cbn. apply Forall_fmap_ext_1, Forall_forall. intros s Hs.
      apply rowsOf_insert_notin. eapply wf_saved_apart; eauto.
      by eapply list_elem_of_lookup_2. }
    destruct (IH (S first) st1 Hwf1 Hn) as (st' & Hloop & Hf & Hin & Hout); [cbn; lia|].
    exists st'. split; [exact Hloop|]. split; [|split].
    + destruct Hf as (Hwf' & Hs' & Hg' & Hu' & Hn' & Hlen' & Hc' & He').
      split; [done|]. split; [congruence|]. repeat split; try done.
      rewrite Hlen'. cbn. by rewrite length_insert.
    + intros row col Hr Hc. destruct (decide (row = first)) as [->|Hne].
      * unfold gridCell. rewrite Hout by lia. rewrite Hg1.
        rewrite list_lookup_insert_eq by (rewrite length_grid; lia). cbn.
        unfold filled. rewrite cellAt_fill_row, decide_True by lia.
        unfold convertedColor. by rewrite Hn.
      * apply Hin; lia.
    + intros row Hr. rewrite Hout by lia. rewrite Hg1.
      apply list_lookup_insert_ne. lia.
Qed.

End Conversion.


(** ** The claim about resampling *)

Section Resampling.

Variable drawImage : Image -> nat -> DrawResult.

Lemma grid_kept_by_tail G :
  preserves (fun s => grid s = G) (sampleFirstRow ;; redrawCanvas ;; lift (alert generatedMessage)).
Proof.
  apply preserves_andThen; [apply preserves_sampleFirstRow|].
  apply preserves_andThen; [by apply preserves_redrawCanvas|].
  by apply preserves_lift.
Qed.

Lemma processImageToLego_cells img pixels st :
  wf st -> drawImage img (canvasSize st) = Drawn pixels ->
  canvasSize st <= length (legoGrid st) ->
  forall row col, row < canvasSize st -> col < canvasSize st ->
    gridCell (snd (processImageToLego drawImage img st)) row col
      = Some (CColor (convertedColor pixels (canvasSize st) row col)).
Proof.
  intros Hwf Hdraw Hlen row col Hr Hc.
  unfold processImageToLego.
  change (canvasSize (saveState st)) with (canvasSize st). rewrite Hdraw.
  destruct (outer_loop pixels (canvasSize st) (canvasSize st) 0 (saveState st))
    as (st2 & Hloop & _ & Hin & _); [by apply saveState_wf|done|done|].
  unfold andThen at 1. rewrite Hloop.
  match goal with |- context [snd (?m st2)] => destruct (m st2) as [c st'] eqn:Ht end.
  pose proof (grid_kept_by_tail (grid st2) _ _ _ Ht eq_refl) as Hg.
  cbn [snd]. unfold gridCell. rewrite Hg. apply Hin; lia.
Qed.

End Resampling.

(** C2, as stated, fails: the script scales the image with [drawImage]
    and reads the scaled canvas. With a canvas that smooths, the cell
    [(1, 1)] of the 2 x 2 grid made from the 4 x 4 image [spotImage] is
    not the colour nearest to the source pixel [(2, 2)]. *)
Lemma conversion_nearest_neighbour_counterexample :
  let st' := snd (processImageToLego smoothingCanvas spotImage smallState) in
  sourceColor spotImage (1 * 4 / 2) (1 * 4 / 2) = "#05131D" /\
  gridCell st' 1 1 = Some (CColor "#E4ADC8") /\
  gridCell st' 1 1 <> Some (CColor (sourceColor spotImage (1 * 4 / 2) (1 * 4 / 2))).
Proof. vm_compute. repeat split. discriminate. Qed.

(** C2, amended. In the conversion, the colour of the cell [(row, col)]
    of the [size * size] grid is the palette colour nearest to one pixel,
    the pixel at position [row * size + col] of the [size * size] canvas
    the image was drawn to, with no averaging by the script; which source
    pixels make up that canvas pixel is the scaling of [drawImage]. When
    the canvas pixel has the channels of the source pixel [(x, y)], the
    cell has the colour nearest to that source pixel. *)
Theorem conversion_reads_scaled_canvas (drawImage : Image -> nat -> DrawResult)
    es img pixels (row col : nat) :
  let st := run drawImage es initialState in
  drawImage img (canvasSize st) = Drawn pixels ->
  canvasSize st <= length (legoGrid st) ->
  row < canvasSize st -> col < canvasSize st ->
  let st' := snd (processImageToLego drawImage img st) in
  gridCell st' row col = Some (CColor (convertedColor pixels (canvasSize st) row col)) /\
  (forall x y, samples pixels (canvasSize st) row col img x y ->
     gridCell st' row col = Some (CColor (sourceColor img x y))).
Proof.
  intros st Hdraw Hlen Hr Hc st'.
  pose proof (reachable_wf drawImage es) as Hwf. fold st in Hwf.
  pose proof (processImageToLego_cells drawImage img pixels st Hwf Hdraw Hlen row col Hr Hc)
    as Hcell.
  split; [exact Hcell|]. intros x y (H0 & H1 & H2).
  fold st' in Hcell. rewrite Hcell. unfold convertedColor, sourceColor.
  by rewrite H0, H1, H2.
Qed.

Lemma conversion_reads_scaled_canvas_witness :
  let st := run nearestCanvas [ChangeSize 2 true] initialState in
  let st' := snd (processImageToLego nearestCanvas spotImage st) in
  gridCell st' 1 1 = Some (CColor (sourceColor spotImage 2 2)) /\
  gridCell st' 0 0 = Some (CColor (sourceColor spotImage 0 0)).
Proof.
  split.
  - refine (proj2 (conversion_reads_scaled_canvas nearestCanvas [ChangeSize 2 true]
             spotImage
             (flat_map (fun i => if decide (i = 3) then rgba 0 0 0 else rgba 255 255 255)
                (seq 0 4))
             1 1 _ _ _ _) 2 2 _);
      [vm_compute; reflexivity|vm_compute; lia|vm_compute; lia|vm_compute; lia|].
    vm_compute. repeat split.
  - refine (proj2 (conversion_reads_scaled_canvas nearestCanvas [ChangeSize 2 true]
             spotImage
             (flat_map (fun i => if decide (i = 3) then rgba 0 0 0 else rgba 255 255 255)
                (seq 0 4))
             0 0 _ _ _ _) 0 0 _);
      [vm_compute; reflexivity|vm_compute; lia|vm_compute; lia|vm_compute; lia|].
    vm_compute. repeat split.
Defined.

(** ** More about the colour functions *)

Section Colours.

Local Open Scope Z_scope.

Lemma fltb_nan_l x : PrimFloat.ltb nan x = false.
Proof. rewrite FloatAxioms.ltb_spec. reflexivity. Qed.

Lemma distance_not_a_number r0 g0 b0 legoRGB :
  r0 = None \/ g0 = None \/ b0 = None -> distance r0 g0 b0 legoRGB = nan.
Proof.
  unfold distance. intros [-> | [-> | ->]]; [done| |].
  - by destruct r0.
  - by destruct r0, g0.
Qed.

Lemma closer_fold_nan r0 g0 b0 (l : list LegoColor) : forall st,
  r0 = None \/ g0 = None \/ b0 = None ->
  fold_left (closer r0 g0 b0) l st = st.
Proof.
  induction l as [|c l IH]; intros st H; [done|]. cbn [fold_left].
  unfold closer at 2. rewrite distance_not_a_number, fltb_nan_l by done.
  by apply IH.
Qed.

(** X1. When one of the three operands is not a number ([undefined]
    read past the end of the pixel array), every distance is [NaN], no
    comparison succeeds and the result is the first palette colour. *)
Theorem findClosestLegoColor_not_a_number r0 g0 b0 :
  r0 = None \/ g0 = None \/ b0 = None ->
  findClosestLegoColor r0 g0 b0 = "#C91A09"%string.
Proof.
  intros H. unfold findClosestLegoColor, findClosestIn.
  by rewrite closer_fold_nan.
Qed.

Lemma findClosestLegoColor_not_a_number_witness :
  findClosestLegoColor (Some 12) None (Some 200) = "#C91A09"%string.
Proof. apply (findClosestLegoColor_not_a_number (Some 12) None (Some 200)). auto. Defined.

(** X2. Every palette colour is its own nearest colour: given the
    channels of an entry of [legoColors], [findClosestLegoColor] returns
    the code of that entry. *)
Theorem findClosestLegoColor_palette_fixed c r1 g1 b1 :
  c ∈ legoColors -> channels c = Some (r1, g1, b1) ->
  findClosestLegoColor (Some r1) (Some g1) (Some b1) = hex c.
Proof.
  intros Hc. unfold legoColors in Hc.
  repeat (apply elem_of_cons in Hc as [-> | Hc];
          [intros H; vm_compute in H; injection H as <- <- <-;
           vm_compute; reflexivity|]).
  by apply not_elem_of_nil in Hc.
Qed.

Lemma findClosestLegoColor_palette_fixed_witness :
  findClosestLegoColor (Some 75) (Some 159) (Some 74) = "#4B9F4A"%string.
Proof.
  apply (findClosestLegoColor_palette_fixed {| name := "Bright Green"; hex := "#4B9F4A" |}).
  - unfold legoColors. do 10 apply list_elem_of_further. apply list_elem_of_here.
  - reflexivity.
Defined.

Lemma hex_digit_range d v : hex_digit d = Some v -> 0 <= v <= 15.
Proof.
  unfold hex_digit.
  repeat match goal with
         | |- context [if ?c then _ else _] => destruct c eqn:?
         end; intros [= <-]; lia.
Qed.

Lemma hex_digit_not_hash d v : hex_digit d = Some v -> Ascii.eqb d "#" = false.
Proof.
  intros H. destruct (Ascii.eqb_spec d "#") as [-> | ]; [|done]. discriminate H.
Qed.

Lemma parseInt16_two d1 d2 v1 v2 :
  hex_digit d1 = Some v1 -> hex_digit d2 = Some v2 ->
  parseInt16 (String d1 (String d2 EmptyString)) = Some (v1 * 16 + v2).
Proof. intros H1 H2. unfold parseInt16. cbn [parse_hex]. by rewrite H1, H2. Qed.

Lemma hexToRgb_digits d1 d2 d3 d4 d5 d6 v1 v2 v3 v4 v5 v6 rest :
  hex_digit d1 = Some v1 -> hex_digit d2 = Some v2 -> hex_digit d3 = Some v3 ->
  hex_digit d4 = Some v4 -> hex_digit d5 = Some v5 -> hex_digit d6 = Some v6 ->
  let digits :=
    String d1 (String d2 (String d3 (String d4 (String d5 (String d6 rest))))) in
  hexToRgb (String "#" digits)
    = {| r := Some (v1 * 16 + v2); g := Some (v3 * 16 + v4); b := Some (v5 * 16 + v6) |} /\
  (rest = EmptyString -> hexToRgb digits = hexToRgb (String "#" digits)) /\
  byte_range (v1 * 16 + v2) /\ byte_range (v3 * 16 + v4) /\ byte_range (v5 * 16 + v6).
Proof.
  intros H1 H2 H3 H4 H5 H6 digits.
  assert (Hparse : hexToRgb (String "#" digits)
    = {| r := Some (v1 * 16 + v2); g := Some (v3 * 16 + v4); b := Some (v5 * 16 + v6) |}).
  { unfold hexToRgb, digits. cbn [remove_first Ascii.eqb Bool.eqb substring].
    replace (substring 0 0 rest) with EmptyString by (by destruct rest).
    by rewrite (parseInt16_two _ _ _ _ H1 H2), (parseInt16_two _ _ _ _ H3 H4),
      (parseInt16_two _ _ _ _ H5 H6). }
  split; [exact Hparse|]. split.
  - intros ->. rewrite Hparse. unfold hexToRgb, digits. cbn [remove_first].
    rewrite (hex_digit_not_hash _ _ H1), (hex_digit_not_hash _ _ H2),
      (hex_digit_not_hash _ _ H3), (hex_digit_not_hash _ _ H4),
      (hex_digit_not_hash _ _ H5), (hex_digit_not_hash _ _ H6).
    cbn [substring].
    by rewrite (parseInt16_two _ _ _ _ H1 H2), (parseInt16_two _ _ _ _ H3 H4),
      (parseInt16_two _ _ _ _ H5 H6).
  - apply hex_digit_range in H1, H2, H3, H4, H5, H6. unfold byte_range. lia.
Qed.

(** X3. [hexToRgb] on a code of six hexadecimal digits, with or without
    the leading [#] and whatever follows the digits, gives the three
    channels [16 * high + low], each between 0 and 255. *)
Theorem hexToRgb_six_digits d1 d2 d3 d4 d5 d6 v1 v2 v3 v4 v5 v6 rest :
  hex_digit d1 = Some v1 -> hex_digit d2 = Some v2 -> hex_digit d3 = Some v3 ->
  hex_digit d4 = Some v4 -> hex_digit d5 = Some v5 -> hex_digit d6 = Some v6 ->
  let digits :=
    String d1 (String d2 (String d3 (String d4 (String d5 (String d6 rest))))) in
  hexToRgb (String "#" digits)
    = {| r := Some (v1 * 16 + v2); g := Some (v3 * 16 + v4); b := Some (v5 * 16 + v6) |} /\
  (rest = EmptyString -> hexToRgb digits = hexToRgb (String "#" digits)) /\
  byte_range (v1 * 16 + v2) /\ byte_range (v3 * 16 + v4) /\ byte_range (v5 * 16 + v6).
Proof. apply hexToRgb_digits. Qed.

Lemma hexToRgb_six_digits_witness :
  hexToRgb "#FE8A18" = {| r := Some 254; g := Some 138; b := Some 24 |}.
Proof.
  exact (proj1 (hexToRgb_six_digits "F" "E" "8" "A" "1" "8" 15 14 8 10 1 8 EmptyString
                  eq_refl eq_refl eq_refl eq_refl eq_refl eq_refl)).
Defined.

End Colours.


(** ** [rgbToHex] and [hexToRgb] *)

Section HexRoundTrip.

Local Open Scope Z_scope.

Lemma append_empty_r (x : string) : String.append x EmptyString = x.
Proof.
  induction x as [|a x IH]; [done|].
  change (String a (String.append x EmptyString) = String a x). by rewrite IH.
Qed.

Lemma append_snoc (x : string) a y :
  String.append (String.append x (String a EmptyString)) y = String.append x (String a y).
Proof.
  induction x as [|c x IH]; [done|].
  change (String c (String.append (String.append x (String a EmptyString)) y)
          = String c (String.append x (String a y))).
  by rewrite IH.
Qed.

Lemma digit_runs_digits d : forall rest cur,
  all_digits d = true ->
  digit_runs (String.append d rest) cur = digit_runs rest (String.append cur d).
Proof.
  induction d as [|a d IH]; intros rest cur Hd.
  - by rewrite append_empty_r.
  - simpl in Hd. apply andb_prop in Hd as [Ha Hd].
    change (digit_runs (String a (String.append d rest)) cur
            = digit_runs rest (String.append cur (String a d))).
    cbn [digit_runs]. rewrite Ha, IH by done. by rewrite append_snoc.
Qed.

(** The runs of digits of a text [rgb(x, y, z)]. *)
Lemma digit_runs_rgb_text x y z :
  all_digits x = true -> all_digits y = true -> all_digits z = true ->
  x <> EmptyString -> y <> EmptyString -> z <> EmptyString ->
  digit_runs
    (String.append "rgb("
       (String.append x (String.append ", "
          (String.append y (String.append ", " (String.append z ")"))))))
    EmptyString = [x; y; z].
Proof.
  intros Hx Hy Hz Nx Ny Nz.
  change (digit_runs (String.append "rgb(" ?t) EmptyString) with (digit_runs t EmptyString).
  rewrite digit_runs_digits by done.
  change (String.append EmptyString x) with x.
  change (digit_runs (String.append ", " ?t) x)
    with (match x with
          | EmptyString => digit_runs (String " " t) EmptyString
          | _ => x :: digit_runs (String " " t) EmptyString
          end).
  destruct x as [|x0 x]; [done|]. f_equal.
  change (digit_runs (String " " ?t) EmptyString) with (digit_runs t EmptyString).
  rewrite digit_runs_digits by done.
  change (String.append EmptyString y) with y.
  change (digit_runs (String.append ", " ?t) y)
    with (match y with
          | EmptyString => digit_runs (String " " t) EmptyString
          | _ => y :: digit_runs (String " " t) EmptyString
          end).
  destruct y as [|y0 y]; [done|]. f_equal.
  change (digit_runs (String " " ?t) EmptyString) with (digit_runs t EmptyString).
  rewrite digit_runs_digits by done.
  change (String.append EmptyString z) with z.
  by destruct z.
Qed.

Lemma channel_values z : byte_range z -> z ∈ seqZ 0 256.
Proof. unfold byte_range. intros H. apply elem_of_seqZ. lia. Qed.

Lemma decimal_ok_all z : byte_range z -> decimal_ok z = true.
Proof.
  intros Hz. apply channel_values in Hz.
  assert (H : forallb decimal_ok (seqZ 0 256) = true) by (vm_compute; reflexivity).
  rewrite forallb_forall in H. apply H. by apply list_elem_of_In.
Qed.

Lemma channelCode_ok_all z : byte_range z -> channelCode_ok z = true.
Proof.
  intros Hz. apply channel_values in Hz.
  assert (H : forallb channelCode_ok (seqZ 0 256) = true) by (vm_compute; reflexivity).
  rewrite forallb_forall in H. apply H. by apply list_elem_of_In.
Qed.

Lemma decimal_facts z :
  byte_range z ->
  all_digits (decimal z) = true /\ decimal z <> EmptyString /\
  parse_dec (decimal z) None = Some z.
Proof.
  intros Hz. pose proof (decimal_ok_all z Hz) as H. unfold decimal_ok in H.
  apply andb_prop in H as [H H3]. apply andb_prop in H as [H1 H2].
  split; [done|]. split.
  - intros Heq. rewrite Heq in H2. discriminate.
  - destruct (parse_dec (decimal z) None) as [v|]; [|done].
    apply Z.eqb_eq in H3. by subst.
Qed.

Lemma channelCode_facts z :
  byte_range z ->
  exists a c, channelCode z = String a (String c EmptyString) /\
    Ascii.eqb a "#" = false /\ Ascii.eqb c "#" = false /\
    parseInt16 (String a (String c EmptyString)) = Some z.
Proof.
  intros Hz. pose proof (channelCode_ok_all z Hz) as H. unfold channelCode_ok in H.
  destruct (channelCode z) as [|a [|c [|? ?]]]; try done.
  apply andb_prop in H as [H H3]. apply andb_prop in H as [H1 H2].
  exists a, c. split; [done|].
  apply negb_true_iff in H1, H2. split; [done|]. split; [done|].
  destruct (parseInt16 _) as [v|]; [|done]. apply Z.eqb_eq in H3. by subst.
Qed.

(** The three runs of digits of [rgb(r, g, b)]. *)
Lemma digit_runs_cssRgb r0 g0 b0 :
  byte_range r0 -> byte_range g0 -> byte_range b0 ->
  digit_runs (cssRgb r0 g0 b0) EmptyString = [decimal r0; decimal g0; decimal b0].
Proof.
  intros Hr Hg Hb.
  destruct (decimal_facts r0 Hr) as (Hr1 & Hr2 & _).
  destruct (decimal_facts g0 Hg) as (Hg1 & Hg2 & _).
  destruct (decimal_facts b0 Hb) as (Hb1 & Hb2 & _).
  by apply digit_runs_rgb_text.
Qed.

Lemma toUpperCase_app x y :
  toUpperCase (String.append x y) = String.append (toUpperCase x) (toUpperCase y).
Proof.
  induction x as [|a x IH]; [done|].
  change (String (upper a) (toUpperCase (String.append x y))
          = String (upper a) (String.append (toUpperCase x) (toUpperCase y))).
  by rewrite IH.
Qed.

(** What [rgbToHex] returns for the text of a colour. *)
Lemma rgbToHex_cssRgb r0 g0 b0 :
  byte_range r0 -> byte_range g0 -> byte_range b0 ->
  rgbToHex (cssRgb r0 g0 b0) =
    String "#" (String.append (channelCode r0)
                  (String.append (channelCode g0) (channelCode b0))).
Proof.
  intros Hr Hg Hb. unfold rgbToHex. rewrite digit_runs_cssRgb by done.
  cbn [lookup list_lookup parseInt10].
  destruct (decimal_facts r0 Hr) as (_ & _ & ->).
  destruct (decimal_facts g0 Hg) as (_ & _ & ->).
  destruct (decimal_facts b0 Hb) as (_ & _ & ->).
  cbn [toUpperCase]. rewrite !toUpperCase_app. done.
Qed.

(** X4. Round trip: for channels between 0 and 255, [rgbToHex] turns
    the text [rgb(r, g, b)] into a code that [hexToRgb] reads back as
    the same three channels. *)
Theorem hexToRgb_rgbToHex r0 g0 b0 :
  byte_range r0 -> byte_range g0 -> byte_range b0 ->
  hexToRgb (rgbToHex (cssRgb r0 g0 b0)) = {| r := Some r0; g := Some g0; b := Some b0 |}.
Proof.
  intros Hr Hg Hb. rewrite rgbToHex_cssRgb by done.
  destruct (channelCode_facts r0 Hr) as (a1 & c1 & -> & Ha1 & Hc1 & H1).
  destruct (channelCode_facts g0 Hg) as (a2 & c2 & -> & Ha2 & Hc2 & H2).
  destruct (channelCode_facts b0 Hb) as (a3 & c3 & -> & Ha3 & Hc3 & H3).
  unfold hexToRgb. simpl. by rewrite H1, H2, H3.
Qed.

Lemma hexToRgb_rgbToHex_witness :
  hexToRgb (rgbToHex (cssRgb 201 26 9)) = {| r := Some 201; g := Some 26; b := Some 9 |}.
Proof. apply (hexToRgb_rgbToHex 201 26 9); unfold byte_range; lia. Defined.

Lemma upper_hex_digit d v :
  hex_digit d = Some v -> upper d = d -> d ∈ upperHexDigits.
Proof.
  destruct d as [[] [] [] [] [] [] [] []]; vm_compute; intros H1 H2;
    try discriminate H1; try discriminate H2;
    repeat (first [apply list_elem_of_here|apply list_elem_of_further]).
Qed.

Lemma digit_pair_ok_all a c :
  a ∈ upperHexDigits -> c ∈ upperHexDigits -> digit_pair_ok a c = true.
Proof.
  intros Ha Hc.
  assert (H : forallb (fun x => forallb (digit_pair_ok x) upperHexDigits) upperHexDigits = true)
    by (vm_compute; reflexivity).
  rewrite forallb_forall in H. specialize (H a (proj1 (list_elem_of_In _ _) Ha)).
  rewrite forallb_forall in H. apply H. by apply list_elem_of_In.
Qed.

Lemma channelCode_digits d1 d2 v1 v2 :
  hex_digit d1 = Some v1 -> hex_digit d2 = Some v2 -> upper d1 = d1 -> upper d2 = d2 ->
  channelCode (v1 * 16 + v2) = String d1 (String d2 EmptyString).
Proof.
  intros H1 H2 U1 U2.
  pose proof (digit_pair_ok_all d1 d2 (upper_hex_digit _ _ H1 U1) (upper_hex_digit _ _ H2 U2)) as H.
  unfold digit_pair_ok in H. rewrite H1, H2 in H. by apply String.eqb_eq in H.
Qed.

(** X5. The other round trip: for an upper-case code [#RRGGBB],
    [rgbToHex] applied to the text [rgb(r, g, b)] of the channels that
    [hexToRgb] reads from the code gives the code back. *)
Theorem rgbToHex_hexToRgb d1 d2 d3 d4 d5 d6 v1 v2 v3 v4 v5 v6 :
  hex_digit d1 = Some v1 -> hex_digit d2 = Some v2 -> hex_digit d3 = Some v3 ->
  hex_digit d4 = Some v4 -> hex_digit d5 = Some v5 -> hex_digit d6 = Some v6 ->
  upper d1 = d1 -> upper d2 = d2 -> upper d3 = d3 ->
  upper d4 = d4 -> upper d5 = d5 -> upper d6 = d6 ->
  hexToRgb (colorCode d1 d2 d3 d4 d5 d6)
    = {| r := Some (v1 * 16 + v2); g := Some (v3 * 16 + v4); b := Some (v5 * 16 + v6) |} /\
  rgbToHex (cssRgb (v1 * 16 + v2) (v3 * 16 + v4) (v5 * 16 + v6))
    = colorCode d1 d2 d3 d4 d5 d6.
Proof.
  intros H1 H2 H3 H4 H5 H6 U1 U2 U3 U4 U5 U6.
  destruct (hexToRgb_digits d1 d2 d3 d4 d5 d6 v1 v2 v3 v4 v5 v6 EmptyString
              H1 H2 H3 H4 H5 H6) as (Hparse & _ & Hr & Hg & Hb).
  split; [exact Hparse|].
  rewrite rgbToHex_cssRgb by done.
  rewrite (channelCode_digits d1 d2), (channelCode_digits d3 d4),
    (channelCode_digits d5 d6) by done.
  reflexivity.
Qed.

Lemma rgbToHex_hexToRgb_witness :
  hexToRgb (colorCode "0" "5" "1" "3" "1" "D")
    = {| r := Some (0 * 16 + 5); g := Some (1 * 16 + 3); b := Some (1 * 16 + 13) |} /\
  rgbToHex (cssRgb (0 * 16 + 5) (1 * 16 + 3) (1 * 16 + 13))
    = colorCode "0" "5" "1" "3" "1" "D".
Proof.
  exact (rgbToHex_hexToRgb "0" "5" "1" "3" "1" "D" 0 5 1 3 1 13
           eq_refl eq_refl eq_refl eq_refl eq_refl eq_refl
           eq_refl eq_refl eq_refl eq_refl eq_refl eq_refl).
Defined.

End HexRoundTrip.

(** ** More about the handlers *)

Section MoreHandlers.

Variable drawImage : Image -> nat -> DrawResult.

Lemma push20_short {A} (s : list A) x : length s < 20 -> push20 s x = s ++ [x].
Proof.
  intros H. unfold push20. rewrite length_app. cbn. by rewrite decide_False by lia.
Qed.

(** X6. [clearCanvas] can be undone: declined, it changes nothing;
    confirmed, it saves the grid, gives a grid of [canvasSize] rows of
    [canvasSize] empty cells, and the [undo] that follows gives back the
    grid as it was before the clearing. *)
Theorem clearCanvas_undoable es :
  let st := run drawImage es initialState in
  clearCanvas false st = st /\
  grid (clearCanvas true st)
    = replicate (canvasSize st) (replicate (canvasSize st) CNull) /\
  snapshots (clearCanvas true st) = push20 (snapshots st) (grid st) /\
  grid (snd (undo (clearCanvas true st))) = grid st.
Proof.
  intros st. pose proof (reachable_wf drawImage es) as Hwf. fold st in Hwf.
  pose proof (saveState_wf _ Hwf) as Hwf1.
  assert (Hs : snapshots (clearCanvas true st) = push20 (snapshots st) (grid st)).
  { unfold clearCanvas. rewrite initializeCanvas_snapshots by done.
    by apply saveState_snapshots. }
  split; [done|]. split; [|split; [exact Hs|]].
  - apply (initializeCanvas_grid (saveState st)).
  - eapply undo_after_push; [|exact Hs]. by apply initializeCanvas_wf.
Qed.

(** X7. When [drawImage] throws, [processImageToLego] shows the error
    in an alert and completes normally with the grid and the bricks
    untouched; the state saved at its start stays on the history, so the
    failed generation still takes one undo step. *)
Theorem failed_draw_keeps_grid es img message :
  let st := run drawImage es initialState in
  drawImage img (canvasSize st) = DrawError message ->
  let r := processImageToLego drawImage img st in
  fst r = Normal /\
  alerts (snd r) = alerts st ++ [String.append "Error processing image: " message] /\
  grid (snd r) = grid st /\ bricks (snd r) = bricks st /\
  snapshots (snd r) = push20 (snapshots st) (grid st).
Proof.
  intros st Hdraw. pose proof (reachable_wf drawImage es) as Hwf. fold st in Hwf.
  unfold processImageToLego.
  change (canvasSize (saveState st)) with (canvasSize st). rewrite Hdraw.
  cbn [fst snd]. split; [done|]. split; [done|]. split; [|split; [done|]].
  - by apply saveState_grid.
  - by apply saveState_snapshots.
Qed.

(** X8. An edit is undone completely: when the history is not full,
    [placeBrick] followed by [undo] gives back the contents of the grid
    and of the whole history, and leaves the selected tool as it was. *)
Theorem placeBrick_undo_inverse es (row col brickElement : nat) :
  let st := run drawImage es initialState in
  length (undoStack st) < 20 ->
  let st' := snd (undo (snd (placeBrick row col brickElement st))) in
  grid st' = grid st /\ snapshots st' = snapshots st /\
  currentColor st' = currentColor st /\ isEraserMode st' = isEraserMode st /\
  canvasSize st' = canvasSize st.
Proof.
  intros st Hlen. pose proof (reachable_wf drawImage es) as Hwf. fold st in Hwf.
  destruct (placeBrick_spec row col brickElement st Hwf)
    as (c & st1 & -> & Hwf1 & Hs1 & _ & Hn1 & Hc1 & He1 & _).
  cbn [snd]. rewrite push20_short in Hs1 by (by rewrite length_snapshots).
  destruct (undo_view st1 _ _ Hwf1 Hs1)
    as (c2 & st2 & -> & _ & Hg2 & Hs2 & _ & Hn2 & Hc2 & He2 & _).
  cbn [snd]. repeat split; congruence.
Qed.

Lemma redrawBricks_normal st bs :
  fst (redrawBricks st bs) = Normal <->
  Forall (fun bk => brow bk < length (legoGrid st)) bs.
Proof.
  induction bs as [|bk bs IH]; cbn [redrawBricks]; [by split|].
  unfold redrawBrick. destruct (legoGrid st !! brow bk) as [l|] eqn:Hrow.
  - assert (Hlt : brow bk < length (legoGrid st)) by by eapply lookup_lt_Some.
    destruct (redrawBricks st bs) as [c rest]. cbn [fst] in IH.
    rewrite Forall_cons, <- IH.
    destruct (truthy _); cbn [fst]; tauto.
  - apply lookup_ge_None_1 in Hrow. split; [done|].
    inversion 1; subst. lia.
Qed.

(** X9. [undo] makes the newest saved state the live grid whether or
    not the redrawing succeeds; it completes normally exactly when every
    brick element of the page has its row in the restored grid, and ends
    by a [TypeError] otherwise (a grid saved before the size was
    increased). *)
Theorem undo_restores_even_if_redraw_fails es s x :
  let st := run drawImage es initialState in
  snapshots st = s ++ [x] ->
  grid (snd (undo st)) = x /\ snapshots (snd (undo st)) = s /\
  (fst (undo st) = Normal <-> Forall (fun bk => brow bk < length x) (bricks st)) /\
  (fst (undo st) <> Normal -> fst (undo st) = Throw "TypeError").
Proof.
  intros st Hs. pose proof (reachable_wf drawImage es) as Hwf. fold st in Hwf.
  destruct (undo_view st s x Hwf Hs) as (c & st' & Hu & _ & Hg & Hs' & _).
  rewrite Hu. cbn [fst snd]. split; [done|]. split; [done|].
  unfold undo in Hu.
  destruct (decide (length (undoStack st) = 0)) as [H0|H0].
  { apply (f_equal length) in Hs. rewrite length_snapshots, length_app in Hs.
    cbn in Hs. lia. }
  unfold redrawCanvas in Hu.
  set (st1 := with_legoGrid _ _) in Hu.
  pose proof (redrawBricks_normal st1 (bricks st1)) as Hn.
  assert (Hc : c = fst (redrawBricks st1 (bricks st1))).
  { destruct (redrawBricks st1 (bricks st1)). by injection Hu as <- _. }
  assert (Hlen : length (legoGrid st1) = length x).
  { rewrite <- Hg, length_grid.
    destruct (redrawBricks st1 (bricks st1)). by injection Hu as _ <-. }
  rewrite Hlen in Hn. rewrite Hc. split; [exact Hn|].
  clear. generalize (bricks st1). intros bs.
  induction bs as [|bk bs IH]; cbn [redrawBricks]; [done|].
  destruct (redrawBrick st1 bk); [|done]. by destruct (redrawBricks st1 bs).
Qed.

(** X10. Choosing a swatch and then clicking a cell inside the grid
    puts the colour of that swatch in the cell, whatever tool was active
    before: the swatch also leaves the eraser mode. *)
Theorem swatch_then_brick es (i row col brickElement : nat) color cells :
  let st := run drawImage es initialState in
  legoColors !! i = Some color ->
  grid st !! row = Some cells -> col < length cells ->
  let st' := snd (placeBrick row col brickElement (swatchClick i st)) in
  gridCell st' row col = Some (CColor (hex color)) /\
  isEraserMode st' = false /\ currentColor st' = hex color.
Proof.
  intros st Hi Hrow Hcol. pose proof (reachable_wf drawImage es) as Hwf. fold st in Hwf.
  destruct (useTool_views (PickSwatch i) st Hwf) as (Hwf1 & Hg1 & _).
  cbn [useTool] in Hwf1, Hg1.
  destruct (placeBrick_spec row col brickElement (swatchClick i st) Hwf1)
    as (c & st1 & -> & _ & _ & _ & _ & Hc1 & He1 & _ & Hg).
  cbn [snd]. rewrite Hg1, Hrow in Hg. destruct Hg as [_ Hg].
  assert (Htool : isEraserMode (swatchClick i st) = false /\
                  currentColor (swatchClick i st) = hex color).
  { unfold swatchClick. by rewrite Hi. }
  destruct Htool as [Hte Htc]. split; [|split; congruence].
  unfold gridCell. rewrite Hg.
  rewrite list_lookup_insert_eq by by eapply lookup_lt_Some.
  cbn. rewrite cellAt_array_set, decide_True by done.
  unfold brickValue. by rewrite Hte, Htc.
Qed.

End MoreHandlers.

Lemma failed_draw_keeps_grid_witness :
  let st := run noCanvas [ClickBrick 5] initialState in
  let r := processImageToLego noCanvas spotImage st in
  fst r = Normal /\
  alerts (snd r) = alerts st ++ [String.append "Error processing image: " "no image"] /\
  grid (snd r) = grid st /\ bricks (snd r) = bricks st /\
  snapshots (snd r) = push20 (snapshots st) (grid st).
Proof.
  exact (failed_draw_keeps_grid noCanvas [ClickBrick 5] spotImage "no image" eq_refl).
Defined.

Lemma placeBrick_undo_inverse_witness :
  let st := run noCanvas [ClickBrick 5] initialState in
  let st' := snd (undo (snd (placeBrick 1 1 33 st))) in
  grid st' = grid st /\ snapshots st' = snapshots st /\
  currentColor st' = currentColor st /\ isEraserMode st' = isEraserMode st /\
  canvasSize st' = canvasSize st.
Proof.
  exact (placeBrick_undo_inverse noCanvas [ClickBrick 5] 1 1 33
           ltac:(vm_compute; lia)).
Defined.

Lemma undo_restores_even_if_redraw_fails_witness :
  let st := run noCanvas [ChangeSize 2 true; ClickBrick 0; ChangeSize 3 true] initialState in
  grid (snd (undo st)) = [[CNull; CNull]; [CNull; CNull]] /\
  snapshots (snd (undo st)) = [] /\
  (fst (undo st) = Normal <->
     Forall (fun bk => brow bk < length [[CNull; CNull]; [CNull; CNull]]) (bricks st)) /\
  (fst (undo st) <> Normal -> fst (undo st) = Throw "TypeError").
Proof.
  exact (undo_restores_even_if_redraw_fails noCanvas
           [ChangeSize 2 true; ClickBrick 0; ChangeSize 3 true]
           [] [[CNull; CNull]; [CNull; CNull]] ltac:(vm_compute; reflexivity)).
Defined.

Lemma swatch_then_brick_witness :
  let st := run noCanvas [ClickEraser] initialState in
  let st' := snd (placeBrick 2 3 67 (swatchClick 7 st)) in
  gridCell st' 2 3 = Some (CColor "#05131D") /\
  isEraserMode st' = false /\ currentColor st' = "#05131D".
Proof.
  exact (swatch_then_brick noCanvas [ClickEraser] 7 2 3 67
           {| name := "Black"; hex := "#05131D" |} (replicate 32 CNull)
           eq_refl ltac:(vm_compute; reflexivity) ltac:(vm_compute; lia)).
Defined.

(** ** A size change that was declined *)

Section DeclinedResize.

Variable drawImage : Image -> nat -> DrawResult.

Lemma for_loop_split body (a b : nat) : forall first st,
  for_loop body first (a + b) st
    = (for_loop body first a ;; for_loop body (first + a) b) st.
Proof.
  induction a as [|a IH]; intros first st.
  - cbn. by rewrite Nat.add_0_r.
  - cbn [Nat.add for_loop].
    change ((body first ;; for_loop body (S first) (a + b)) st)
      with (match body first st with
            | (Normal, st') => for_loop body (S first) (a + b) st'
            | (Throw e, st') => (Throw e, st')
            end).
    change (((body first ;; for_loop body (S first) a) ;; for_loop body (first + S a) b) st)
      with (match (match body first st with
                   | (Normal, st') => for_loop body (S first) a st'
                   | (Throw e, st') => (Throw e, st')
                   end) with
            | (Normal, st') => for_loop body (first + S a) b st'
            | (Throw e, st') => (Throw e, st')
            end).
    destruct (body first st) as [[|e] st1]; [|done].
    rewrite IH. unfold andThen. by replace (S first + a) with (first + S a) by lia.
Qed.

Lemma convert_missing_row pixels row count first st :
  legoGrid st !! row = None -> 0 < count ->
  for_loop (fun col => convertCell pixels row col) first count st
    = (Throw "TypeError", st).
Proof.
  intros Hrow Hc. destruct count as [|k]; [lia|]. cbn [for_loop].
  unfold andThen, convertCell. by rewrite writeCell_missing_row.
Qed.

(** X11. Declining the confirmation of a size change still leaves
    [canvasSize] at the value chosen, the grid, the bricks and the
    history being as before. If that value exceeds the number of rows of
    the grid, a generation that follows pushes on the history, converts
    the rows that exist and ends by a [TypeError] at the first missing
    row. *)
Theorem declined_resize_then_generate es (value : nat) :
  let st := run drawImage es initialState in
  length (legoGrid st) < value ->
  let st1 := canvasSizeChange value false st in
  canvasSize st1 = value /\ grid st1 = grid st /\ bricks st1 = bricks st /\
  snapshots st1 = snapshots st /\
  (forall img pixels, drawImage img value = Drawn pixels ->
     fst (processImageToLego drawImage img st1) = Throw "TypeError" /\
     snapshots (snd (processImageToLego drawImage img st1))
       = push20 (snapshots st) (grid st)).
Proof.
  intros st Hlen st1. pose proof (reachable_wf drawImage es) as Hwf. fold st in Hwf.
  assert (Hwf1 : wf st1) by exact Hwf.
  split; [done|]. split; [done|]. split; [done|]. split; [done|].
  intros img pixels Hdraw. split.
  - pose proof (saveState_wf _ Hwf1) as Hwf2.
    set (rows := length (legoGrid st)) in *.
    assert (Hloops : exists st3,
      for_loop (fun row => for_loop (fun col => convertCell pixels row col) 0 value)
        0 value (saveState st1) = (Throw "TypeError", st3)).
    { destruct (outer_loop pixels value rows 0 (saveState st1) Hwf2 eq_refl)
        as (st3 & Hloop & Hf & _); [done|].
      destruct Hf as (_ & _ & Hg3 & _). exists st3.
      set (rowBody := fun row => for_loop (fun col => convertCell pixels row col) 0 value)
        in *.
      assert (Hv : value = rows + S (value - rows - 1)) by lia.
      rewrite Hv at 1. rewrite for_loop_split. unfold andThen at 1. rewrite Hloop.
      cbn [for_loop Nat.add]. unfold andThen at 1. unfold rowBody at 1.
      rewrite convert_missing_row; [done| |lia].
      rewrite Hg3. apply lookup_ge_None_2. cbn. fold rows. lia. }
    destruct Hloops as [st3 Hloops].
    unfold processImageToLego.
    change (canvasSize (saveState st1)) with value. rewrite Hdraw.
    unfold andThen at 1. by rewrite Hloops.
  - by destruct (processImageToLego_spec drawImage img st1 Hwf1)
      as (c & st' & -> & _ & Hs & _).
Qed.

End DeclinedResize.

Lemma declined_resize_then_generate_witness :
  let st := run nearestCanvas [ChangeSize 2 true] initialState in
  let st1 := canvasSizeChange 3 false st in
  canvasSize st1 = 3 /\ grid st1 = grid st /\ bricks st1 = bricks st /\
  snapshots st1 = snapshots st /\
  (forall img pixels, nearestCanvas img 3 = Drawn pixels ->
     fst (processImageToLego nearestCanvas img st1) = Throw "TypeError" /\
     snapshots (snd (processImageToLego nearestCanvas img st1))
       = push20 (snapshots st) (grid st)).
Proof.
  exact (declined_resize_then_generate nearestCanvas [ChangeSize 2 true] 3
           ltac:(vm_compute; lia)).
Defined.


(** ** The page and the grid *)

Section Display.

Variable drawImage : Image -> nat -> DrawResult.

Lemma andThen_normal m1 m2 st st' :
  (m1 ;; m2) st = (Normal, st') ->
  exists s, m1 st = (Normal, s) /\ m2 s = (Normal, st').
Proof.
  unfold andThen. destruct (m1 st) as [[|e] s]; [|done]. intros H. by exists s.
Qed.

Lemma shows_same_grid st st' bk : grid st' = grid st -> shows st bk -> shows st' bk.
Proof. intros Hg (cell & Hc & H). exists cell. unfold gridCell in *. by rewrite Hg. Qed.

Lemma palette_code_nonempty code : code ∈ paletteCodes -> code <> EmptyString.
Proof.
  intros H ->. unfold paletteCodes, legoColors in H. cbn in H.
  repeat (apply elem_of_cons in H as [H|H]; [discriminate H|]).
  by apply not_elem_of_nil in H.
Qed.

Lemma redrawBrick_shows st bk bk' :
  redrawBrick st bk = Some bk' -> shows st bk' /\ coords bk' = coords bk.
Proof.
  unfold redrawBrick. destruct (legoGrid st !! brow bk) as [l|] eqn:Hrow; [|done].
  set (cell := cellAt (readRow (store st) l) (bcol bk)).
  assert (Hcell : gridCell st (brow bk) (bcol bk) = Some cell).
  { unfold gridCell. rewrite grid_lookup, Hrow. done. }
  destruct (truthy cell) as [color|] eqn:Ht; intros [= <-]; (split; [|done]);
    exists cell; (split; [exact Hcell|]); rewrite Ht; cbn; auto.
Qed.

Lemma redrawBricks_shows st bs : forall bs',
  redrawBricks st bs = (Normal, bs') ->
  Forall (shows st) bs' /\ coords <$> bs' = coords <$> bs.
Proof.
  induction bs as [|bk bs IH]; intros bs'; cbn [redrawBricks].
  - by intros [= <-].
  - destruct (redrawBrick st bk) as [bk1|] eqn:Hb; [|done].
    destruct (redrawBricks st bs) as [c rest] eqn:Hr. intros [= -> <-].
    destruct (IH rest eq_refl) as [Hall Hco].
    destruct (redrawBrick_shows _ _ _ Hb) as [Hs Hc]. split.
    + by constructor.
    + cbn. by rewrite Hc, Hco.
Qed.

Lemma redrawCanvas_shows st st' :
  redrawCanvas st = (Normal, st') ->
  Forall (shows st') (bricks st') /\ coords <$> bricks st' = coords <$> bricks st /\
  grid st' = grid st.
Proof.
  unfold redrawCanvas. destruct (redrawBricks st (bricks st)) as [c bs] eqn:Hr.
  intros [= -> <-]. destruct (redrawBricks_shows _ _ _ Hr) as [Hall Hco].
  split; [|done]. eapply Forall_impl; [exact Hall|]. intros bk. by apply shows_same_grid.
Qed.

Lemma coords_grid (n k : nat) : forall a (p : nat * nat),
  p ∈ flat_map (fun row => (fun col => (row, col)) <$> seq 0 n) (seq a k) ->
  a <= p.1 < a + k /\ p.2 < n.
Proof.
  induction k as [|k IH]; intros a p; cbn [seq flat_map].
  - by intros ?%not_elem_of_nil.
  - intros [H|H]%elem_of_app.
    + apply list_elem_of_fmap in H as (col & -> & Hcol). apply elem_of_seq in Hcol.
      cbn. lia.
    + apply IH in H. lia.
Qed.

Lemma coords_grid_NoDup (n k : nat) : forall a,
  NoDup (flat_map (fun row => (fun col => (row, col)) <$> seq 0 n) (seq a k)).
Proof.
  induction k as [|k IH]; intros a; cbn [seq flat_map]; [apply NoDup_nil_2|].
  apply NoDup_app. split; [|split; [|apply IH]].
  - apply NoDup_fmap_2; [|apply NoDup_seq]. by intros x y [= ->].
  - intros p H1 H2. apply list_elem_of_fmap in H1 as (col & -> & _).
    apply coords_grid in H2. cbn in H2. lia.
Qed.

Lemma initializeCanvas_coords st :
  coords <$> bricks (initializeCanvas st)
    = flat_map (fun row => (fun col => (row, col)) <$> seq 0 (canvasSize st))
        (seq 0 (canvasSize st)).
Proof.
  cbn [initializeCanvas bricks with_bricks].
  generalize (canvasSize st) at 1 3. intros n. generalize 0 at 2 4. intros a.
  revert a. induction (canvasSize st) as [|k IH]; intros a; cbn [seq flat_map]; [done|].
  rewrite fmap_app, IH. f_equal.
  rewrite <- list_fmap_compose. done.
Qed.

Lemma initializeCanvas_bricks st :
  NoDup (coords <$> bricks (initializeCanvas st)) /\
  Forall (shows (initializeCanvas st)) (bricks (initializeCanvas st)).
Proof.
  split.
  - rewrite initializeCanvas_coords. apply coords_grid_NoDup.
  - apply Forall_forall. intros bk Hbk.
    assert (Hc : coords bk ∈ coords <$> bricks (initializeCanvas st))
      by by apply list_elem_of_fmap_2.
    rewrite initializeCanvas_coords in Hc. apply coords_grid in Hc. cbn in Hc.
    cbn [bricks initializeCanvas with_bricks] in Hbk.
    apply list_elem_of_In, in_flat_map in Hbk as (row & _ & Hbk).
    apply in_map_iff in Hbk as (col & <- & _).
    unfold coords in Hc. cbn [brow bcol createBrick fst snd] in Hc.
    exists CNull. split; [|cbn; auto].
    unfold gridCell. rewrite initializeCanvas_grid. cbn [brow bcol createBrick].
    rewrite lookup_replicate_2 by lia. cbn.
    unfold cellAt. by rewrite lookup_replicate_2 by lia.
Qed.

Lemma initializeCanvas_display st :
  wf st -> palette_closed st -> display_inv (initializeCanvas st).
Proof.
  intros Hwf Hpc. split; [by apply initializeCanvas_wf|].
  split; [by apply palette_closed_initializeCanvas|]. apply initializeCanvas_bricks.
Qed.

Lemma placeBrick_bricks row col k st st' :
  placeBrick row col k st = (Normal, st') ->
  bricks st' =
    alter (if isEraserMode st then setBrick "#1a1a1a" false
           else setBrick (currentColor st) true) k (bricks st).
Proof.
  unfold placeBrick. change (isEraserMode (saveState st)) with (isEraserMode st).
  change (currentColor (saveState st)) with (currentColor st).
  destruct (isEraserMode st); intros H; apply andThen_normal in H as (s & Hw & Hl);
    unfold lift in Hl; injection Hl as <-; unfold writeCell in Hw;
    (destruct (legoGrid (saveState st) !! row); [|done]); by injection Hw as <-.
Qed.

Lemma gridCell_insert st st' (row col : nat) cells v :
  grid st !! row = Some cells ->
  grid st' = <[row := array_set cells col v]> (grid st) ->
  forall row' col',
    gridCell st' row' col' =
      if decide ((row', col') = (row, col)) then Some v else gridCell st row' col'.
Proof.
  intros Hrow Hg row' col'. unfold gridCell. rewrite Hg.
  pose proof (lookup_lt_Some _ _ _ Hrow) as Hlt.
  destruct (decide (row' = row)) as [->|Hr].
  - rewrite list_lookup_insert_eq by done. rewrite Hrow. cbn.
    rewrite cellAt_array_set.
    destruct (decide (col = col')) as [->|Hc].
    + by rewrite decide_True.
    + rewrite decide_False; [done|]. intros [= ->]. done.
  - rewrite list_lookup_insert_ne by done.
    rewrite decide_False; [done|]. by intros [= ->].
Qed.

Lemma placeBrick_display k bk st st' :
  bricks st !! k = Some bk ->
  placeBrick (brow bk) (bcol bk) k st = (Normal, st') ->
  display_inv st -> display_inv st'.
Proof.
  intros Hk Hp (Hwf & Hpc & Hnd & Hshow).
  pose proof (placeBrick_bricks _ _ _ _ _ Hp) as Hb.
  destruct (placeBrick_spec (brow bk) (bcol bk) k st Hwf)
    as (c & st1 & Hp' & Hwf1 & _ & _ & _ & _ & _ & _ & Hg).
  rewrite Hp in Hp'. injection Hp' as <- <-.
  destruct (grid st !! brow bk) as [cells|] eqn:Hrow; [|by destruct Hg].
  destruct Hg as [_ Hg].
  pose proof (gridCell_insert st st' _ _ _ _ Hrow Hg) as Hcell.
  split; [done|]. split; [by eapply palette_closed_placeBrick|].
  assert (Hco : coords <$> bricks st' = coords <$> bricks st).
  { rewrite Hb. apply list_eq. intros j. rewrite !list_lookup_fmap.
    destruct (decide (k = j)) as [<-|Hne].
    - rewrite list_lookup_alter_eq, Hk. by destruct (isEraserMode st).
    - by rewrite list_lookup_alter_ne. }
  split; [by rewrite Hco|].
  apply Forall_lookup. intros j bj Hj. rewrite Hb in Hj.
  destruct (decide (k = j)) as [<-|Hne].
  - rewrite list_lookup_alter_eq, Hk in Hj. cbn in Hj. injection Hj as <-.
    exists (brickValue st). split.
    + destruct (isEraserMode st); cbn [brow bcol setBrick];
        by rewrite Hcell, decide_True.
    + unfold brickValue. destruct (isEraserMode st); cbn; [auto|].
      destruct Hpc as [Hcur _]. apply palette_code_nonempty in Hcur.
      by rewrite decide_False.
  - rewrite list_lookup_alter_ne in Hj by done.
    rewrite Forall_lookup in Hshow. destruct (Hshow j bj Hj) as (cell & Hc & H).
    exists cell. split; [|done]. rewrite Hcell, decide_False; [done|].
    intros Heq. apply Hne. eapply NoDup_lookup; [exact Hnd| |].
    + rewrite list_lookup_fmap, Hk. done.
    + rewrite list_lookup_fmap, Hj. cbn. unfold coords. by rewrite Heq.
Qed.

Lemma display_inv_same st st' :
  wf st' -> palette_closed st' -> bricks st' = bricks st -> grid st' = grid st ->
  display_inv st -> display_inv st'.
Proof.
  intros Hwf Hpc Hb Hg (_ & _ & Hnd & Hshow). split; [done|]. split; [done|].
  rewrite Hb. split; [done|].
  eapply Forall_impl; [exact Hshow|]. intros bk. by apply shows_same_grid.
Qed.

Lemma redraw_display st st' :
  wf st -> palette_closed st -> NoDup (coords <$> bricks st) ->
  redrawCanvas st = (Normal, st') -> display_inv st'.
Proof.
  intros Hwf Hpc Hnd Hr.
  destruct (redrawCanvas_shows _ _ Hr) as (Hshow & Hco & _).
  destruct (redrawCanvas_bricks st) as (c & bs & Hr').
  rewrite Hr in Hr'. injection Hr' as _ ->.
  split; [done|]. split; [done|]. split; [by rewrite Hco|done].
Qed.

Lemma bricks_kept_by_loops pixels n B :
  preserves (fun s => bricks s = B)
    (for_loop (fun row => for_loop (fun col => convertCell pixels row col) 0 n) 0 n).
Proof.
  apply preserves_for_loop. intros row. apply preserves_for_loop. intros col.
  intros s c s'. unfold convertCell, writeCell.
  by destruct (legoGrid s !! row); intros [= <- <-].
Qed.

Lemma processImageToLego_display img st st' :
  processImageToLego drawImage img st = (Normal, st') ->
  display_inv st -> display_inv st'.
Proof.
  intros Hp Hinv. pose proof Hinv as (Hwf & Hpc & Hnd & Hshow).
  pose proof (palette_closed_processImageToLego drawImage img _ _ _ Hp Hpc) as Hpc'.
  destruct (processImageToLego_spec drawImage img st Hwf) as (c & st1 & Hp1 & Hwf' & _).
  rewrite Hp in Hp1. injection Hp1 as <- <-.
  unfold processImageToLego in Hp.
  destruct (drawImage img (canvasSize (saveState st))) as [msg|e|pixels].
  - injection Hp as <-. apply (display_inv_same st); [done|done|done| |done].
    by apply (saveState_grid st).
  - discriminate Hp.
  - apply andThen_normal in Hp as (s2 & Hloops & Hp).
    apply andThen_normal in Hp as (s3 & Hsample & Hp).
    apply andThen_normal in Hp as (s4 & Hredraw & Hp). injection Hp as <-.
    pose proof (bricks_kept_by_loops pixels _ _ _ _ _ Hloops eq_refl) as Hb2.
    assert (s3 = s2) as ->.
    { unfold sampleFirstRow in Hsample. by destruct (legoGrid s2 !! 0); injection Hsample. }
    destruct (redrawCanvas_shows _ _ Hredraw) as (Hshow4 & Hco4 & _).
    split; [done|]. split; [done|]. split; [|done].
    change (bricks (alert generatedMessage s4)) with (bricks s4).
    rewrite Hco4, Hb2. exact Hnd.
Qed.

Lemma handle_display e st st' :
  handle drawImage e st = (Normal, st') -> display_inv st -> display_inv st'.
Proof.
  intros He Hinv. pose proof Hinv as (Hwf & Hpc & Hnd & Hshow).
  destruct e as [k|i| | |confirmed|value confirmed|img]; cbn [handle] in He.
  - destruct (bricks st !! k) as [bk|] eqn:Hk; [by eapply placeBrick_display|].
    by injection He as <-.
  - injection He as <-. apply (display_inv_same st); try done.
    + by apply (useTool_views (PickSwatch i)).
    + by eapply (palette_closed_handle drawImage (ClickSwatch i) st Normal).
    + unfold swatchClick. by destruct (legoColors !! i).
    + unfold swatchClick. by destruct (legoColors !! i).
  - injection He as <-. by apply (display_inv_same st).
  - unfold undo in He. destruct (decide (length (undoStack st) = 0)).
    + injection He as <-. by apply (display_inv_same st).
    + destruct (undoStack st) as [|g u _] eqn:Hu using rev_ind; [done|].
      destruct (undo_spec st u g Hwf Hu) as (c & bs & _ & Hwf').
      rewrite last_snoc, removelast_last in He.
      change (default [] (Some g)) with g in He.
      apply (redraw_display (with_legoGrid g (with_undoStack u st)) st');
        [exact Hwf'|exact Hpc|exact Hnd|exact He].
  - injection He as <-. destruct confirmed; [|done]. cbn [clearCanvas].
    apply initializeCanvas_display; [by apply saveState_wf|].
    by apply palette_closed_saveState.
  - injection He as <-. unfold canvasSizeChange. destruct confirmed.
    + by apply (initializeCanvas_display (with_canvasSize value st)).
    + by apply (display_inv_same st).
  - destruct img as [img|]; cbn [generateLegoArt] in He.
    + by eapply processImageToLego_display.
    + injection He as <-. by apply (display_inv_same st).
Qed.

Lemma runNormal_display es : forall st st',
  runNormal drawImage es st = Some st' -> display_inv st -> display_inv st'.
Proof.
  induction es as [|e es IH]; intros st st'; cbn [runNormal].
  - by intros [= <-].
  - destruct (handle drawImage e st) as [[|err] st1] eqn:He; [|done].
    intros Hr Hinv. eapply IH; [exact Hr|]. by eapply handle_display.
Qed.

Lemma initialState_display : display_inv initialState.
Proof.
  split; [apply initialState_inv|]. split; [apply palette_closed_initialState|].
  apply (initializeCanvas_bricks globals).
Qed.

End Display.

(** X12. In a session where every handler completed normally, each
    brick element of the page shows the content of its cell of the live
    grid: the colour of the cell and the class [placed] when the cell
    holds a colour, the look of an empty brick otherwise. *)
Theorem page_shows_grid (drawImage : Image -> nat -> DrawResult) es st :
  runNormal drawImage es initialState = Some st ->
  Forall (shows st) (bricks st) /\ NoDup (coords <$> bricks st).
Proof.
  intros Hr.
  destruct (runNormal_display drawImage es _ _ Hr initialState_display)
    as (_ & _ & Hnd & Hshow).
  by split.
Qed.

Lemma page_shows_grid_witness :
  let st := snd (handle noCanvas ClickUndo
              (run noCanvas [ChangeSize 2 true; ClickBrick 3; ClickEraser; ClickBrick 0]
                 initialState)) in
  Forall (shows st) (bricks st) /\ NoDup (coords <$> bricks st).
Proof.
  exact (page_shows_grid noCanvas
           [ChangeSize 2 true; ClickBrick 3; ClickEraser; ClickBrick 0; ClickUndo]
           _ ltac:(vm_compute; reflexivity)).
Defined.

(** X13. Undoing every edit: after at most 20 cell mutations of a
    document whose history is empty, as many calls of [undo] give back
    the grid the document started with and leave the history empty, so
    that one more [undo] only shows "Nothing to undo!". *)
Theorem undo_all_edits (drawImage : Image -> nat -> DrawResult) es ms :
  let st0 := run drawImage es initialState in
  undoStack st0 = [] -> length ms <= 20 ->
  let st := undoTimes (length ms) (mutateAll ms st0) in
  grid st = grid st0 /\ undoStack st = [] /\
  undo st = (Normal, alert "Nothing to undo!" st).
Proof.
  intros st0 Hempty Hms st.
  pose proof (reachable_wf drawImage es) as Hwf. fold st0 in Hwf.
  assert (Hs0 : snapshots st0 = lastN 20 []) by (unfold snapshots; by rewrite Hempty).
  pose proof (mutateAll_snapshots ms st0 [] Hwf Hs0) as Hs.
  rewrite app_nil_l in Hs. unfold lastN in Hs. rewrite length_trace in Hs.
  replace (length ms - 20) with 0 in Hs by lia. rewrite drop_0 in Hs.
  pose proof (mutateAll_wf ms st0 Hwf) as Hwf'.
  assert (Hgoal : grid st = grid st0 /\ snapshots st = []).
  { unfold st. destruct ms as [|m ms']; [split; [done|exact Hs0]|].
    cbn [trace] in Hs. cbn [length].
    apply (undoTimes_oldest (length ms') _ [] (grid st0) (trace ms' (mutate m st0)));
      [done|exact Hs|apply length_trace]. }
  destruct Hgoal as [Hg Hsn]. split; [done|].
  assert (Hu : undoStack st = []).
  { apply (f_equal length) in Hsn. rewrite length_snapshots in Hsn.
    by destruct (undoStack st). }
  split; [done|]. by apply undo_empty.
Qed.

Lemma undo_all_edits_witness :
  let st0 := run noCanvas [ChangeSize 2 true] initialState in
  let st := undoTimes (length (take 7 twentyFiveMutations))
              (mutateAll (take 7 twentyFiveMutations) st0) in
  grid st = grid st0 /\ undoStack st = [] /\
  undo st = (Normal, alert "Nothing to undo!" st).
Proof.
  exact (undo_all_edits noCanvas [ChangeSize 2 true] (take 7 twentyFiveMutations)
           ltac:(vm_compute; reflexivity) ltac:(vm_compute; lia)).
Defined.


(** ** The saved picture *)

Section Picture.

Lemma filledRects_bricks (st : State) l row (cols : list nat) : forall style more,
  filledRects style
    (flat_map (fun col => drawBrick (cellAt (readRow (store st) l) col) row col) cols ++ more)
  = ((fun col => (fillColor (cellAt (readRow (store st) l) col), col * 20, row * 20, 20, 20))
       <$> cols)
    ++ filledRects (match cols with [] => style | _ => "rgba(255, 255, 255, 0.3)"%string end)
         more.
Proof.
  induction cols as [|col cols IH]; intros style more; [done|].
  cbn [flat_map drawBrick app filledRects fmap list_fmap]. rewrite IH.
  f_equal. by destruct cols.
Qed.

Lemma fillColor_pictureColor st (row col : nat) l :
  legoGrid st !! row = Some l ->
  fillColor (cellAt (readRow (store st) l) col) = pictureColor st row col.
Proof.
  intros Hl. unfold pictureColor. rewrite grid_lookup, Hl. cbn.
  unfold fillColor, cellAt, truthy.
  destruct (readRow (store st) l !! col) as [[| |[|a code]]|]; cbn; try done.
Qed.

Lemma drawRows_complete st (rows : list nat) : forall style,
  Forall (fun row => row < length (legoGrid st)) rows ->
  exists calls, drawRows st rows = (Normal, calls) /\
    (canvasSize st = 0 -> calls = []) /\
    (0 < canvasSize st ->
     filledRects style calls =
       flat_map (fun row =>
         (fun col => (pictureColor st row col, col * 20, row * 20, 20, 20))
           <$> seq 0 (canvasSize st)) rows).
Proof.
  induction rows as [|row rows IH]; intros style Hrows; cbn [drawRows].
  - by exists [].
  - apply Forall_cons in Hrows as [Hrow Hrows].
    destruct (lookup_lt_is_Some_2 (legoGrid st) row Hrow) as [l Hl]. rewrite Hl.
    destruct (IH "rgba(255, 255, 255, 0.3)"%string Hrows) as (more & -> & Hzero & Hmore).
    eexists. split; [reflexivity|]. split.
    + intros Hn. rewrite Hn. by rewrite (Hzero Hn).
    + intros Hn. rewrite filledRects_bricks. cbn [flat_map]. f_equal.
      * apply list_fmap_ext. intros i col _.
        by rewrite (fillColor_pictureColor st row col l Hl).
      * destruct (seq 0 (canvasSize st)) eqn:Hseq; [|by apply Hmore].
        apply (f_equal length) in Hseq. rewrite length_seq in Hseq. cbn in Hseq. lia.
Qed.

(** X14. When the grid has at least [canvasSize] rows, [saveCreation]
    draws on a canvas of [20 * canvasSize] pixels a side without error,
    and fills one square of 20 by 20 pixels per cell, row by row: the
    square of the cell [(row, col)] has its corner at
    [(20 * col, 20 * row)] and is filled with the colour code the cell
    holds, or with [#e0e0e0] when the cell holds none; the studs drawn
    in between do not change these colours. *)
Theorem saveCreation_draws_grid (st : State) :
  canvasSize st <= length (legoGrid st) ->
  exists calls,
    saveCreation st = (canvasSize st * 20, canvasSize st * 20, Normal, calls) /\
    filledRects EmptyString calls =
      flat_map (fun row =>
        (fun col => (pictureColor st row col, col * 20, row * 20, 20, 20))
          <$> seq 0 (canvasSize st)) (seq 0 (canvasSize st)).
Proof.
  intros Hlen. unfold saveCreation.
  destruct (drawRows_complete st (seq 0 (canvasSize st)) EmptyString)
    as (calls & -> & Hzero & Hcalls).
  { apply Forall_forall. intros row Hrow. apply elem_of_seq in Hrow. lia. }
  exists calls. split; [done|].
  destruct (canvasSize st) as [|n] eqn:Hn.
  - by rewrite Hzero.
  - apply Hcalls. lia.
Qed.

Lemma saveCreation_draws_grid_witness :
  let st := run noCanvas [ChangeSize 2 true; ClickBrick 3] initialState in
  exists calls,
    saveCreation st = (canvasSize st * 20, canvasSize st * 20, Normal, calls) /\
    filledRects EmptyString calls =
      flat_map (fun row =>
        (fun col => (pictureColor st row col, col * 20, row * 20, 20, 20))
          <$> seq 0 (canvasSize st)) (seq 0 (canvasSize st)).
Proof.
  exact (saveCreation_draws_grid
           (run noCanvas [ChangeSize 2 true; ClickBrick 3] initialState)
           ltac:(vm_compute; lia)).
Defined.

(** X15. When the grid has fewer rows than [canvasSize] (a size change
    that was declined, or an [undo] to a smaller grid), [saveCreation]
    ends by a [TypeError] instead of producing the picture. *)
Theorem saveCreation_missing_rows (st : State) :
  length (legoGrid st) < canvasSize st ->
  exists calls,
    saveCreation st = (canvasSize st * 20, canvasSize st * 20, Throw "TypeError", calls).
Proof.
  intros Hlen. unfold saveCreation.
  assert (H : forall (k a : nat), a <= length (legoGrid st) -> length (legoGrid st) < a + k ->
    fst (drawRows st (seq a k)) = Throw "TypeError").
  { induction k as [|k IH]; intros a Ha Hk; [lia|]. cbn [seq drawRows].
    destruct (legoGrid st !! a) as [l|] eqn:Hl; [|done].
    apply lookup_lt_Some in Hl.
    specialize (IH (S a) ltac:(lia) ltac:(lia)).
    by destruct (drawRows st (seq (S a) k)). }
  specialize (H (canvasSize st) 0 ltac:(lia) ltac:(lia)).
  destruct (drawRows st (seq 0 (canvasSize st))) as [c calls]. cbn in H. subst c.
  by exists calls.
Qed.

Lemma saveCreation_missing_rows_witness :
  let st := canvasSizeChange 48 false initialState in
  exists calls,
    saveCreation st = (canvasSize st * 20, canvasSize st * 20, Throw "TypeError", calls).
Proof.
  exact (saveCreation_missing_rows (canvasSizeChange 48 false initialState)
           ltac:(vm_compute; lia)).
Defined.

End Picture.
